(** * DuelMath probability engine (src/services/mathUtils.ts)

    A shallow embedding of the combinatorics and probability code of
    DuelMath: [combinations], [calculateMultivariateHyper],
    [calculateProbabilities], [calculateSwissStandings] and
    [calculateTopXProbability].

    Modelling conventions.
    - JavaScript [bigint] values are [Z]; BigInt division [/] truncates
      toward zero and is [Z.quot].
    - Integer-valued JavaScript [number] inputs (card counts, sizes,
      rounds, players, ranks) are [Z].
    - Real-valued JavaScript [number] results (probabilities, expected
      counts) are exact rationals [Q]: [Number(x)] of a bigint is
      [inject_Z x] and [/], [*], [+] are the rational operations.  IEEE
      rounding of these intermediate results is not modelled.
    - A JavaScript object used as a dictionary keyed by numbers is a
      [gmap]. *)

From Stdlib Require Import ZArith QArith Qpower Qround Qabs Lia Lqa String Ascii.
From stdpp Require Import base list gmap.

Open Scope Z_scope.

(* ------------------------------------------------------------------ *)
(** ** Binomial coefficients (mathematical reference) *)

(** Pascal's triangle on [nat]; used only to describe what the code
    computes. *)
Fixpoint choose (n k : nat) : nat :=
  match n, k with
  | _, O => 1%nat
  | O, S _ => 0%nat
  | S n', S k' => (choose n' k' + choose n' (S k'))%nat
  end.

Definition chooseZ (n k : Z) : Z := Z.of_nat (choose (Z.to_nat n) (Z.to_nat k)).

(* ------------------------------------------------------------------ *)
(** ** [combinations] (mathUtils.ts, lines 1-25) *)

(** [for (let i = 1; i <= k; i++) res = (res * BigInt(n - i + 1)) / BigInt(i);]
    The counter [i] starts at the given value and the loop body runs
    [fuel] times. *)
Fixpoint combo_loop (n : Z) (fuel : nat) (i res : Z) : Z :=
  match fuel with
  | O => res
  | S f => combo_loop n f (i + 1) (Z.quot (res * (n - i + 1)) i)
  end.

(** The body of [combinations] once the memo has missed. *)
Definition combinations_compute (n k : Z) : Z :=
  if (k <? 0) || (n <? k) then 0
  else if (k =? 0) || (k =? n) then 1
  else
    let k := if n <? 2 * k then n - k else k in   (* k > n / 2 *)
    combo_loop n (Z.to_nat k) 1 1.

(** [combinations] as the code has it: the memo [comboMemo] is threaded
    explicitly.  The string key [`${n},${k}`] is injective on integers,
    so it is modelled by the pair [(n, k)] (taken after the symmetry
    reduction).  A memo hit is used only when the stored bigint is
    truthy, i.e. non-zero. *)
Definition combinations_memo (memo : gmap (Z * Z) Z) (n k : Z) : Z * gmap (Z * Z) Z :=
  if (k <? 0) || (n <? k) then (0, memo)
  else if (k =? 0) || (k =? n) then (1, memo)
  else
    let k := if n <? 2 * k then n - k else k in
    match memo !! (n, k) with
    | Some v => if negb (v =? 0) then (v, memo)
                else let res := combo_loop n (Z.to_nat k) 1 1 in (res, <[(n, k) := res]> memo)
    | None => let res := combo_loop n (Z.to_nat k) 1 1 in (res, <[(n, k) := res]> memo)
    end.

(** The memo is a pure cache: every entry it holds is the value the
    loop computes for its key. *)
Definition memo_sound (memo : gmap (Z * Z) Z) : Prop :=
  forall n k v, memo !! (n, k) = Some v -> v = combo_loop n (Z.to_nat k) 1 1.

(** Through a sound memo, [combinations] is the pure function
    [combinations n k]; the rest of the development uses the latter. *)
Definition combinations (n k : Z) : Z := combinations_compute n k.

(** Sum of a [Z]-valued function over a list. *)
Definition zsum {A} (f : A -> Z) (l : list A) : Z := fold_right (fun x acc => f x + acc) 0 l.

(** The integers [a], [a+1], ..., [a+len-1]. *)
Fixpoint range_from (a : Z) (len : nat) : list Z :=
  match len with
  | O => []
  | S l => a :: range_from (a + 1) l
  end.

(* ------------------------------------------------------------------ *)
(** ** [calculateMultivariateHyper] (mathUtils.ts, lines 27-90) *)

Record HyperGroup := {
  id : string;
  name : string;
  countInDeck : Z;
  minDesired : Z;
  maxDesired : Z
}.

(** [for (let take = start; ...; take++) total = body(take, total)],
    the body run [fuel] times. *)
Fixpoint for_take (body : Z -> Z -> Z) (fuel : nat) (take total : Z) : Z :=
  match fuel with
  | O => total
  | S f => for_take body f (take + 1) (body take total)
  end.

(** The inner recursive [solve].  [gs] is the suffix
    [groups[groupIndex..]], so [groupIndex === groups.length] is
    [gs = []].  [total] is the captured [totalSuccessfulCombinations],
    threaded as state. *)
Fixpoint solve (otherCount : Z) (gs : list HyperGroup)
    (remainingHand currentWays total : Z) : Z :=
  if remainingHand <? 0 then total
  else
    match gs with
    | [] =>
        if remainingHand <=? otherCount
        then total + currentWays * combinations otherCount remainingHand
        else total
    | g :: gs' =>
        let minTake := Z.max 0 (minDesired g) in
        let maxTake := Z.min (Z.min remainingHand (countInDeck g)) (maxDesired g) in
        for_take
          (fun take total =>
             let ways := combinations (countInDeck g) take in
             if 0 <? ways
             then solve otherCount gs' (remainingHand - take) (currentWays * ways) total
             else total)
          (Z.to_nat (maxTake - minTake + 1)) minTake total
    end.

(** [groups.reduce((acc, g) => acc + g.countInDeck, 0)] *)
Definition totalInGroups (groups : list HyperGroup) : Z :=
  fold_left (fun acc g => acc + countInDeck g) groups 0.

Definition calculateMultivariateHyper (deckSize handSize : Z) (groups : list HyperGroup) : Q :=
  if (deckSize <? handSize) || (handSize <? 0) then 0%Q
  else
    let tig := totalInGroups groups in
    if deckSize <? tig then 0%Q
    else
      let otherCount := deckSize - tig in
      let totalCombinations := combinations deckSize handSize in
      if totalCombinations =? 0 then 0%Q
      else
        let totalSuccessfulCombinations := solve otherCount groups handSize 1 0 in
        (inject_Z totalSuccessfulCombinations / inject_Z totalCombinations * 100)%Q.

(** *** The successful-way count as the spec describes it

    All tuples [(take_g)] with [minDesired_g <= take_g <= maxDesired_g]
    for every group, in group order. *)
Fixpoint take_tuples (gs : list HyperGroup) : list (list Z) :=
  match gs with
  | [] => [[]]
  | g :: gs' =>
      flat_map (fun t => map (cons t) (take_tuples gs'))
        (range_from (minDesired g) (Z.to_nat (maxDesired g - minDesired g + 1)))
  end.

(** Product over the groups of [C(countInPool_g, take_g)] (the
    binomial coefficient, not the code's [combinations]). *)
Fixpoint group_ways (gs : list HyperGroup) (ts : list Z) : Z :=
  match gs, ts with
  | g :: gs', t :: ts' => chooseZ (countInDeck g) t * group_ways gs' ts'
  | _, _ => 1
  end.

(** Sum over the tuples with [sum take_g <= rem] and
    [rem - sum take_g <= otherCount] of the product of the group ways
    and [C(otherCount, rem - sum take_g)]. *)
Definition tuple_ways (otherCount : Z) (gs : list HyperGroup) (rem : Z) : Z :=
  zsum (fun ts =>
          let s := zsum (fun t => t) ts in
          if (s <=? rem) && (rem - s <=? otherCount)
          then group_ways gs ts * chooseZ otherCount (rem - s)
          else 0)
       (take_tuples gs).

Definition spec_successful_ways (poolSize handSize : Z) (gs : list HyperGroup) : Z :=
  tuple_ways (poolSize - zsum countInDeck gs) gs handSize.

(** The data-model invariants of a pool configuration. *)
Definition pool_invariants (poolSize handSize : Z) (gs : list HyperGroup) : Prop :=
  0 <= handSize <= poolSize /\
  Forall (fun g => 0 <= minDesired g <= maxDesired g /\ 0 <= countInDeck g) gs /\
  zsum countInDeck gs <= poolSize.

(* ------------------------------------------------------------------ *)
(** ** Number formatting *)

(** [parseFloat(x.toFixed(2))]: the multiple of 1/100 nearest to [x],
    the larger magnitude on a tie (toFixed rounds the magnitude and
    re-attaches the sign).  Values here are at most 100, far below the
    1e21 bound where toFixed switches to exponent notation. *)
Definition toFixed2 (x : Q) : Q :=
  if Qle_bool 0 x then (inject_Z (Qfloor (x * 100 + (1 # 2))) / 100)%Q
  else (- (inject_Z (Qfloor (- x * 100 + (1 # 2))) / 100))%Q.

(* ------------------------------------------------------------------ *)
(** ** [calculateProbabilities] (mathUtils.ts, lines 92-117) *)

Record ProbRow := {
  drawCount : Z;
  exact : Q;
  cumulativeAtLeast : Q
}.

Definition tmp_group (countInDeck minDesired maxDesired : Z) : HyperGroup :=
  {| id := "tmp"; name := "tmp"; countInDeck := countInDeck;
     minDesired := minDesired; maxDesired := maxDesired |}.

(** [for (let i = 0; i <= maxPossible; i++) result.push(...)]: rows for
    [i = start .. start + fuel - 1], in push order. *)
Fixpoint prob_rows (deckSize targetCount handSize : Z) (fuel : nat) (i : Z) : list ProbRow :=
  match fuel with
  | O => []
  | S f =>
      let exactProb := calculateMultivariateHyper deckSize handSize
                         [tmp_group targetCount i i] in
      let atLeastProb := calculateMultivariateHyper deckSize handSize
                           [tmp_group targetCount i handSize] in
      {| drawCount := i; exact := toFixed2 exactProb;
         cumulativeAtLeast := toFixed2 atLeastProb |}
        :: prob_rows deckSize targetCount handSize f (i + 1)
  end.

Definition calculateProbabilities (deckSize targetCount handSize : Z) : list ProbRow :=
  let maxPossible := Z.min targetCount handSize in
  prob_rows deckSize targetCount handSize (Z.to_nat (maxPossible + 1)) 0.

(* ------------------------------------------------------------------ *)
(** ** [calculateSwissStandings] (mathUtils.ts, lines 119-142) *)

Record SwissStanding := {
  wins : Z;
  losses : Z;
  count : Q;
  lowerBound : Z;
  upperBound : Z
}.

(** [for (let wins = numRounds; wins >= 0; wins--)]: entries for
    [wins = start, start - 1, ...], [fuel] of them. *)
Fixpoint swiss_loop (numPlayers numRounds : Z) (totalCombinations : Q)
    (fuel : nat) (w : Z) : list SwissStanding :=
  match fuel with
  | O => []
  | S f =>
      let losses := numRounds - w in
      let ways := inject_Z (combinations numRounds w) in
      let exactProb := (ways / totalCombinations)%Q in
      let count := (exactProb * inject_Z numPlayers)%Q in
      let lowerBound := Qfloor count in
      let upperBound := Z.max lowerBound (Qceiling count) in
      {| wins := w; losses := losses; count := count;
         lowerBound := lowerBound; upperBound := upperBound |}
        :: swiss_loop numPlayers numRounds totalCombinations f (w - 1)
  end.

Definition calculateSwissStandings (numPlayers numRounds : Z) : list SwissStanding :=
  let totalCombinations := Qpower 2 numRounds in     (* 2 ** numRounds *)
  swiss_loop numPlayers numRounds totalCombinations (Z.to_nat (numRounds + 1)) numRounds.

(* ------------------------------------------------------------------ *)
(** ** [calculateTopXProbability] (mathUtils.ts, lines 144-185) *)

Definition Qlt_bool (a b : Q) : bool := negb (Qle_bool b a).

(** The chance assigned to one bucket:
    [if (cumulativePlayers <= targetRank) 1.0
     else if (prevCumulative < targetRank) (targetRank - prevCumulative) / playersAtThisRecord
     else 0.0]. *)
Definition bucket_chance (targetRank prevCumulative cumulative playersAtThisRecord : Q) : Q :=
  if Qle_bool cumulative targetRank then 1%Q
  else if Qlt_bool prevCumulative targetRank
  then ((targetRank - prevCumulative) / playersAtThisRecord)%Q
  else 0%Q.

(** The loop filling [makeItChanceMap]; [cumulative] is
    [cumulativePlayers]. *)
Fixpoint chance_loop (targetRank : Q) (standings : list SwissStanding)
    (cumulative : Q) (m : gmap Z Q) : gmap Z Q :=
  match standings with
  | [] => m
  | s :: rest =>
      let playersAtThisRecord := count s in
      let prevCumulative := cumulative in
      let cumulative := (cumulative + playersAtThisRecord)%Q in
      chance_loop targetRank rest cumulative
        (<[wins s := bucket_chance targetRank prevCumulative cumulative playersAtThisRecord]> m)
  end.

Definition makeItChanceMap (totalPlayers totalRounds targetRank : Z) : gmap Z Q :=
  chance_loop (inject_Z targetRank) (calculateSwissStandings totalPlayers totalRounds) 0 ∅.

(** [for (let i = 0; i <= remainingRounds; i++)], accumulating
    [totalProbability]; a missing map entry reads as [0]
    ([makeItChanceMap[finalWins] || 0]). *)
Fixpoint topx_loop (m : gmap Z Q) (currentWins remainingRounds : Z) (denominator : Q)
    (fuel : nat) (i : Z) (totalProbability : Q) : Q :=
  match fuel with
  | O => totalProbability
  | S f =>
      let finalWins := currentWins + i in
      let probGettingMoreWins :=
        (inject_Z (combinations remainingRounds i) / denominator)%Q in
      let chance := match m !! finalWins with Some c => c | None => 0%Q end in
      topx_loop m currentWins remainingRounds denominator f (i + 1)
        (totalProbability + probGettingMoreWins * chance)%Q
  end.

Definition calculateTopXProbability
    (totalPlayers totalRounds targetRank currentWins currentLosses : Z) : Q :=
  let remainingRounds := totalRounds - (currentWins + currentLosses) in
  if remainingRounds <? 0 then 0%Q
  else if totalPlayers <=? targetRank then 100%Q
  else
    let m := makeItChanceMap totalPlayers totalRounds targetRank in
    let denominator := Qpower 2 remainingRounds in
    let totalProbability :=
      topx_loop m currentWins remainingRounds denominator
        (Z.to_nat (remainingRounds + 1)) 0 0%Q in
    toFixed2 (totalProbability * 100)%Q.

(** Sum of a [Q]-valued function over a list. *)
Definition qsum {A} (f : A -> Q) (l : list A) : Q :=
  fold_right (fun x acc => (f x + acc)%Q) 0%Q l.

(** Running total before the bucket at position [i]: the sum of the
    counts of the entries processed before it. *)
Definition cumulative_before (standings : list SwissStanding) (i : nat) : Q :=
  qsum count (take i standings).

(* ------------------------------------------------------------------ *)
(** ** A sequence of [combinations] calls sharing the memo *)

(** The results of the calls [combinations(n1, k1)], [combinations(n2, k2)],
    ... made one after the other on the process-wide memo. *)
Fixpoint run_combinations (memo : gmap (Z * Z) Z) (calls : list (Z * Z)) : list Z :=
  match calls with
  | [] => []
  | (n, k) :: rest =>
      let '(v, memo') := combinations_memo memo n k in
      v :: run_combinations memo' rest
  end.

(** [solve] reads a group's lower bound only through
    [Math.max(0, group.minDesired)]; this is the group with that bound
    applied (used to compare [solve] with the spec's count). *)
Definition clamp_min (g : HyperGroup) : HyperGroup :=
  {| id := id g; name := name g; countInDeck := countInDeck g;
     minDesired := Z.max 0 (minDesired g); maxDesired := maxDesired g |}.

(** One group's bounds widened to another's: the same copy count, a
    minimum no larger and a maximum no smaller. *)
Definition widens (g g' : HyperGroup) : Prop :=
  countInDeck g = countInDeck g' /\ minDesired g' <= minDesired g /\
  maxDesired g <= maxDesired g'.

(* ================================================================== *)
(** * The deck file, card cache and deck builder
    (src/services/mathUtils.ts from line 186, src/components/DeckBuilder.tsx)

    Strings are Rocq strings of 8-bit code units: file contents and card
    names are treated as Latin-1 text. *)

Module Types.

(** The fields of a [Card] the code reads. *)
Record Card := {
  id : Z;
  name : string;
  type : string;
  ban_tcg : option string    (* card.banlist_info?.ban_tcg *)
}.

End Types.

Module YgoService.
Import Types.

(** [String.prototype.trim] and the leading-space skip of [parseInt]
    remove WhiteSpace and LineTerminator code units; of the code units
    below 256 these are TAB, LF, VT, FF, CR, SPACE and NO-BREAK SPACE. *)
Definition is_js_space (c : ascii) : bool :=
  let n := nat_of_ascii c in
  (n =? 9)%nat || (n =? 10)%nat || (n =? 11)%nat || (n =? 12)%nat ||
  (n =? 13)%nat || (n =? 32)%nat || (n =? 160)%nat.

Fixpoint drop_spaces (l : list ascii) : list ascii :=
  match l with
  | [] => []
  | c :: l' => if is_js_space c then drop_spaces l' else l
  end.

(** [s.trim()] *)
Definition trim (s : string) : string :=
  string_of_list_ascii (rev (drop_spaces (rev (drop_spaces (list_ascii_of_string s))))).

(** [s.split(sep)] for a one-character separator: [n] separators give
    [n + 1] pieces, empty ones included. *)
Fixpoint split_on (sep : ascii) (l : list ascii) : list (list ascii) :=
  match l with
  | [] => [[]]
  | c :: l' =>
      if Ascii.eqb c sep then [] :: split_on sep l'
      else match split_on sep l' with
           | [] => [[c]]
           | w :: ws => (c :: w) :: ws
           end
  end.

Definition str_split (sep : ascii) (s : string) : list string :=
  map string_of_list_ascii (split_on sep (list_ascii_of_string s)).

Definition newline : ascii := ascii_of_nat 10.

Definition carriage_return : ascii := ascii_of_nat 13.

Definition is_digit (c : ascii) : bool :=
  (48 <=? nat_of_ascii c)%nat && (nat_of_ascii c <=? 57)%nat.

Fixpoint take_digits (l : list ascii) : list ascii :=
  match l with
  | [] => []
  | c :: l' => if is_digit c then c :: take_digits l' else []
  end.

Definition digits_value (ds : list ascii) : Z :=
  fold_left (fun acc c => acc * 10 + (Z.of_nat (nat_of_ascii c) - 48)) ds 0.

(** [parseInt(s, 10)]: skip leading white space, read an optional sign,
    then the longest run of decimal digits; no digit at all is [NaN]
    ([None]). *)
Definition parseInt10 (s : string) : option Z :=
  let l := drop_spaces (list_ascii_of_string s) in
  let '(sign, rest) :=
    match l with
    | c :: r =>
        if Ascii.eqb c "-"%char then (-1, r)
        else if Ascii.eqb c "+"%char then (1, r)
        else (1, l)
    | [] => (1, l)
    end in
  match take_digits rest with
  | [] => None
  | ds => Some (sign * digits_value ds)
  end.

Record DeckData := { main : list Z; extra : list Z; side : list Z }.

Inductive SectionKey := SecMain | SecExtra | SecSide.

(** [deck[currentSection].push(id)] *)
Definition push (deck : DeckData) (sec : SectionKey) (x : Z) : DeckData :=
  match sec with
  | SecMain => {| main := main deck ++ [x]; extra := extra deck; side := side deck |}
  | SecExtra => {| main := main deck; extra := extra deck ++ [x]; side := side deck |}
  | SecSide => {| main := main deck; extra := extra deck; side := side deck ++ [x] |}
  end.

(** The [for (const line of lines)] loop, [currentSection] threaded as
    state. *)
Fixpoint parse_lines (lines : list string) (deck : DeckData) (cur : option SectionKey)
    : DeckData :=
  match lines with
  | [] => deck
  | line :: rest =>
      if String.eqb line EmptyString then parse_lines rest deck cur
      else if String.prefix "#main" line then parse_lines rest deck (Some SecMain)
      else if String.prefix "#extra" line then parse_lines rest deck (Some SecExtra)
      else if String.prefix "!side" line then parse_lines rest deck (Some SecSide)
      else match parseInt10 line, cur with
           | Some x, Some sec => parse_lines rest (push deck sec x) cur
           | _, _ => parse_lines rest deck cur
           end
  end.

Definition parseYDK (content : string) : DeckData :=
  let lines := map trim (str_split newline content) in
  parse_lines lines {| main := []; extra := []; side := [] |} None.

(** [Array.from(new Set(ids))]: first occurrences, in order. *)
Fixpoint js_set_from (acc : list Z) (l : list Z) : list Z :=
  match l with
  | [] => acc
  | x :: l' => if existsb (Z.eqb x) acc then js_set_from acc l' else js_set_from (acc ++ [x]) l'
  end.

(** [cardCache.has(id)] *)
Definition cache_has (cache : gmap Z Card) (i : Z) : bool :=
  match cache !! i with Some _ => true | None => false end.

(** [data.data.forEach(card => cardCache.set(card.id, card))] *)
Definition cache_set (cache : gmap Z Card) (cards : list Card) : gmap Z Card :=
  fold_left (fun m c => <[id c := c]> m) cards cache.

Definition CHUNK_SIZE : nat := 40.

(** [missingIds.slice(i, i + CHUNK_SIZE)] for [i = 0, CHUNK_SIZE, ...];
    [fuel] bounds the number of chunks. *)
Fixpoint chunks (fuel : nat) (l : list Z) : list (list Z) :=
  match fuel, l with
  | O, _ => []
  | _, [] => []
  | S f, _ => take CHUNK_SIZE l :: chunks f (drop CHUNK_SIZE l)
  end.

(** The answer of the card API to the request for one chunk: a thrown
    error ([inl]), a response without [data] ([inr None]) or its
    [data] array. *)
Definition Request := list Z -> unit + option (list Card).

(** The [for] loop over the chunks; an error ends the loop (the
    [catch] is outside it) and keeps the cards stored so far. *)
Fixpoint fetch_chunks (request : Request) (cs : list (list Z)) (cache : gmap Z Card)
    : gmap Z Card :=
  match cs with
  | [] => cache
  | chunk :: cs' =>
      match request chunk with
      | inl _ => cache
      | inr None => fetch_chunks request cs' cache
      | inr (Some cards) => fetch_chunks request cs' (cache_set cache cards)
      end
  end.

(** [fetchCardData] with the module-level [cardCache] passed in and
    returned ([savePersistentCache] writes to [localStorage] and is not
    modelled). *)
Definition fetchCardData (request : Request) (cache : gmap Z Card) (ids : list Z)
    : gmap Z Card * list Card :=
  let uniqueIds := js_set_from [] ids in
  let missingIds := List.filter (fun i => negb (cache_has cache i)) uniqueIds in
  let cache' :=
    if (0 <? length missingIds)%nat
    then fetch_chunks request (chunks (length missingIds) missingIds) cache
    else cache in
  (cache', omap (fun i => cache' !! i) ids).

(** Every entry of the cache is stored under its card's [id]. *)
Definition cache_ok (cache : gmap Z Card) : Prop :=
  forall k c, cache !! k = Some c -> id c = k.

End YgoService.

Module DeckBuilder.
Import Types YgoService.

Definition digit_char (d : Z) : ascii := ascii_of_nat (48 + Z.to_nat d).

(** Decimal digits of [n >= 0], least significant first; [fuel] bounds
    their number. *)
Fixpoint digits_rev (fuel : nat) (n : Z) : list ascii :=
  match fuel with
  | O => []
  | S f => digit_char (n mod 10) :: (if n <? 10 then [] else digits_rev f (n / 10))
  end.

(** [String(n)] of an integer-valued number below [1e21] in magnitude
    (from [1e21] on JavaScript switches to exponent notation). *)
Definition number_to_string (n : Z) : string :=
  let ds := string_of_list_ascii
              (rev (digits_rev (Z.to_nat (Z.log2 (Z.abs n) + 1)) (Z.abs n))) in
  if n <? 0 then String "-" ds else ds.

(** The characters [number_to_string] writes. *)
Definition numeral_char (c : ascii) : bool := is_digit c || Ascii.eqb c "-"%char.

(** [xs.join(sep)] *)
Fixpoint join (sep : string) (xs : list string) : string :=
  match xs with
  | [] => EmptyString
  | [x] => x
  | x :: xs' => String.append x (String.append sep (join sep xs'))
  end.

(** The file content built by [exportYDK] (the download itself is not
    modelled). *)
Definition exportYDK (mainDeck extraDeck sideDeck : list Card) : string :=
  join (String newline EmptyString)
    (["#created by DuelMath"%string; "#main"%string] ++ map (fun c => number_to_string (id c)) mainDeck ++
     ["#extra"%string] ++ map (fun c => number_to_string (id c)) extraDeck ++
     ["!side"%string] ++ map (fun c => number_to_string (id c)) sideDeck).

(** [String.prototype.toUpperCase] on a string of Latin-1 code units,
    giving UTF-16 code units: [a]-[z] and the Latin-1 lower-case letters
    map to their capitals, [sharp s] becomes ["SS"], [micro sign] and
    [y diaeresis] map to U+039C and U+0178. *)
Definition upper_units (c : ascii) : list N :=
  let n := N.of_nat (nat_of_ascii c) in
  if (97 <=? n)%N && (n <=? 122)%N then [(n - 32)%N]
  else if (n =? 181)%N then [924%N]
  else if (n =? 223)%N then [83%N; 83%N]
  else if (224 <=? n)%N && (n <=? 254)%N && negb (n =? 247)%N then [(n - 32)%N]
  else if (n =? 255)%N then [376%N]
  else [n].

Definition toUpperCase (s : string) : list N :=
  flat_map upper_units (list_ascii_of_string s).

Fixpoint starts_with (pre l : list N) : bool :=
  match pre, l with
  | [], _ => true
  | p :: pre', x :: l' => (p =? x)%N && starts_with pre' l'
  | _ :: _, [] => false
  end.

(** [hay.includes(needle)] *)
Fixpoint includes (hay needle : list N) : bool :=
  match hay with
  | [] => starts_with needle []
  | _ :: hay' => starts_with needle hay || includes hay' needle
  end.

Definition isExtraDeckCard (card : Card) : bool :=
  let types := ["Fusion"; "Synchro"; "XYZ"; "Link"; "Token"]%string in
  existsb (fun t => includes (toUpperCase (type card)) (toUpperCase t)) types.

Inductive SectionType := SMain | SExtra | SSide | SConsiderations.

#[global] Instance SectionType_eq_dec : EqDecision SectionType.
Proof. solve_decision. Defined.

(** The four [useState] lists of the deck builder. *)
Record DeckState := {
  mainDeck : list Card;
  extraDeck : list Card;
  sideDeck : list Card;
  considerations : list Card
}.

Definition ban_is (card : Card) (status : string) : bool :=
  match ban_tcg card with
  | Some b => String.eqb b status
  | None => false
  end.

Definition checkDeckLimit (st : DeckState) (card : Card) : bool :=
  let countInDeck :=
    length (List.filter (fun c => String.eqb (name c) (name card))
                   (mainDeck st ++ extraDeck st ++ sideDeck st)) in
  if ban_is card "Forbidden" then false
  else if ban_is card "Limited" && (1 <=? countInDeck)%nat then false
  else if ban_is card "Semi-Limited" && (2 <=? countInDeck)%nat then false
  else (countInDeck <? 3)%nat.

Definition getSectionData (st : DeckState) (section : SectionType) : list Card :=
  match section with
  | SMain => mainDeck st
  | SExtra => extraDeck st
  | SSide => sideDeck st
  | SConsiderations => considerations st
  end.

Definition setSectionData (st : DeckState) (section : SectionType) (data : list Card)
    : DeckState :=
  match section with
  | SMain => {| mainDeck := data; extraDeck := extraDeck st; sideDeck := sideDeck st;
                considerations := considerations st |}
  | SExtra => {| mainDeck := mainDeck st; extraDeck := data; sideDeck := sideDeck st;
                 considerations := considerations st |}
  | SSide => {| mainDeck := mainDeck st; extraDeck := extraDeck st; sideDeck := data;
                considerations := considerations st |}
  | SConsiderations => {| mainDeck := mainDeck st; extraDeck := extraDeck st;
                          sideDeck := sideDeck st; considerations := data |}
  end.

(** The [target] argument of [addCard]: ['auto'] or a section. *)
Inductive AddTarget := TAuto | TSection (s : SectionType).

#[global] Instance AddTarget_eq_dec : EqDecision AddTarget.
Proof. solve_decision. Defined.

Definition addCard (st : DeckState) (card : Card) (target : AddTarget) : DeckState :=
  if bool_decide (target = TSection SConsiderations) then
    setSectionData st SConsiderations (considerations st ++ [card])
  else if negb (checkDeckLimit st card) then st
  else if bool_decide (target = TSection SSide) then
    (if (length (sideDeck st) <? 15)%nat
     then setSectionData st SSide (sideDeck st ++ [card]) else st)
  else if isExtraDeckCard card then
    (if (length (extraDeck st) <? 15)%nat
     then setSectionData st SExtra (extraDeck st ++ [card]) else st)
  else
    (if (length (mainDeck st) <? 60)%nat
     then setSectionData st SMain (mainDeck st ++ [card]) else st).

(** [xs.filter((_, i) => i !== index)] *)
Definition filter_index {A} (index : nat) (xs : list A) : list A :=
  map fst (List.filter (fun p => negb (Nat.eqb (snd p) index)) (combine xs (seq 0 (length xs)))).

Definition removeCard (st : DeckState) (index : nat) (section : SectionType) : DeckState :=
  setSectionData st section (filter_index index (getSectionData st section)).

(** [arr.splice(start, 1)] on a copy, for [start >= 0]. *)
Definition splice_remove {A} (start : nat) (xs : list A) : list A :=
  take start xs ++ drop (S start) xs.

(** [arr.splice(start, 0, x)] on a copy, for [start >= 0]. *)
Definition splice_insert {A} (start : nat) (x : A) (xs : list A) : list A :=
  take start xs ++ x :: drop start xs.

Inductive DragSource := FromSection (s : SectionType) | FromSearch.

#[global] Instance DragSource_eq_dec : EqDecision DragSource.
Proof. solve_decision. Defined.

Record DragInfo := {
  dcard : Card;
  sourceSection : option DragSource;
  sourceIndex : option nat
}.

Definition section_eqb (a b : SectionType) : bool := bool_decide (a = b).

(** The checks shared by both drop handlers; [true] when the drop is
    refused. *)
Definition drop_refused (st : DeckState) (card : Card) (targetSection : SectionType) : bool :=
  (negb (section_eqb targetSection SConsiderations) && negb (checkDeckLimit st card))
  || (section_eqb targetSection SExtra && negb (isExtraDeckCard card))
  || (section_eqb targetSection SMain && isExtraDeckCard card)
  || (section_eqb targetSection SExtra && (15 <=? length (extraDeck st))%nat)
  || (section_eqb targetSection SMain && (60 <=? length (mainDeck st))%nat)
  || (section_eqb targetSection SSide && (15 <=? length (sideDeck st))%nat).

(** [removeCard(sourceIndex, sourceSection)] when the card comes from a
    section and has an index. *)
Definition remove_source (st : DeckState) (d : DragInfo) : DeckState :=
  match sourceSection d, sourceIndex d with
  | Some (FromSection src), Some i => removeCard st i src
  | _, _ => st
  end.

(** Both [set...] calls of a handler read the same snapshot [st], as
    React state setters do; the result pairs the deck lists with the new
    [draggedItem]. *)
Definition onDropOnSection (st : DeckState) (draggedItem : option DragInfo)
    (targetSection : SectionType) : DeckState * option DragInfo :=
  match draggedItem with
  | None => (st, None)
  | Some d =>
      if bool_decide (sourceSection d = Some (FromSection targetSection)) then
        match sourceIndex d with
        | Some i =>
            (setSectionData st targetSection
               (splice_remove i (getSectionData st targetSection) ++ [dcard d]), draggedItem)
        | None => (st, draggedItem)
        end
      else if drop_refused st (dcard d) targetSection then (st, draggedItem)
      else (setSectionData (remove_source st d) targetSection
              (getSectionData st targetSection ++ [dcard d]), None)
  end.

Definition onDropOnCard (st : DeckState) (draggedItem : option DragInfo)
    (targetSection : SectionType) (targetIndex : nat) : DeckState * option DragInfo :=
  match draggedItem with
  | None => (st, None)
  | Some d =>
      if bool_decide (sourceSection d = Some (FromSection targetSection)) then
        match sourceIndex d with
        | Some i =>
            (setSectionData st targetSection
               (splice_insert targetIndex (dcard d)
                  (splice_remove i (getSectionData st targetSection))), None)
        | None => (st, draggedItem)
        end
      else if drop_refused st (dcard d) targetSection then (st, draggedItem)
      else (setSectionData (remove_source st d) targetSection
              (splice_insert targetIndex (dcard d) (getSectionData st targetSection)), None)
  end.

(** [handleImport] after the file is read: the three [fetchCardData]
    calls of [Promise.all] are taken one after the other, sharing the
    card cache. *)
Definition handleImport (request : Request) (cache : gmap Z Card) (content : string)
    : gmap Z Card * DeckState :=
  let deckData := parseYDK content in
  let '(c1, mainCards) := fetchCardData request cache (main deckData) in
  let '(c2, extraCards) := fetchCardData request c1 (extra deckData) in
  let '(c3, sideCards) := fetchCardData request c2 (side deckData) in
  (c3, {| mainDeck := mainCards; extraDeck := extraCards; sideDeck := sideCards;
          considerations := [] |}).

(** Copies of the cards named [x] in a list. *)
Definition cnt (x : string) (l : list Card) : nat :=
  length (List.filter (fun c => String.eqb (name c) x) l).

(** Copies of [x] in the main, extra and side decks, as [checkDeckLimit]
    counts them. *)
Definition name_count (st : DeckState) (x : string) : nat :=
  cnt x (mainDeck st ++ extraDeck st ++ sideDeck st).

(** The number of copies the ban list allows. *)
Definition ban_limit (card : Card) : nat :=
  if ban_is card "Forbidden" then 0
  else if ban_is card "Limited" then 1
  else if ban_is card "Semi-Limited" then 2
  else 3.

(** The shape the deck builder keeps: at most 60 main, 15 extra and 15
    side cards, extra-deck cards only in the extra deck, and at most
    three copies of a name over main, extra and side. *)
Definition deck_ok (st : DeckState) : Prop :=
  (length (mainDeck st) <= 60)%nat /\ (length (extraDeck st) <= 15)%nat /\
  (length (sideDeck st) <= 15)%nat /\
  Forall (fun c => isExtraDeckCard c = false) (mainDeck st) /\
  Forall (fun c => isExtraDeckCard c = true) (extraDeck st) /\
  (forall x, (name_count st x <= 3)%nat).

(** A drag started by [onDragStart] on a deck card: the recorded index
    points at the dragged card. *)
Definition drag_ok (st : DeckState) (d : DragInfo) : Prop :=
  forall sec i, sourceSection d = Some (FromSection sec) -> sourceIndex d = Some i ->
    getSectionData st sec !! i = Some (dcard d).

End DeckBuilder.

(* ================================================================== *)
(** * Side decking in [App] (src/unnamed/part_000) *)

Module SideDeck.

(** [DeckAnalysis] with its card arrays over a type [A] of JavaScript
    values ([mainDetails[idx]] may be [undefined]). *)
Record DeckAnalysis (A : Type) := {
  mainDetails : list A;
  extraDetails : list A;
  sideDetails : list A;
  countMain : nat;
  countExtra : nat;
  countSide : nat
}.
Arguments mainDetails {A}. Arguments extraDetails {A}. Arguments sideDetails {A}.
Arguments countMain {A}. Arguments countExtra {A}. Arguments countSide {A}.

(** The side-decking state of [App]: a [Set<number>] is the list of its
    elements in insertion order. *)
Record SwapState (A : Type) := {
  deckAnalysis : option (DeckAnalysis A);
  swapOutIndices : list nat;
  swapInIndices : list nat;
  isSideDeckMode : bool
}.
Arguments deckAnalysis {A}. Arguments swapOutIndices {A}. Arguments swapInIndices {A}.
Arguments isSideDeckMode {A}.

Section SideDecking.
Context {A : Type} (undefined : A).

Definition set_has (s : list nat) (i : nat) : bool := existsb (Nat.eqb i) s.

(** [next.has(index) ? next.delete(index) : next.add(index)] *)
Definition toggle (s : list nat) (index : nat) : list nat :=
  if set_has s index then List.filter (fun j => negb (Nat.eqb j index)) s else s ++ [index].

Definition toggleIndividualSwap (st : SwapState A) (index : nat) (isSide : bool) : SwapState A :=
  if isSide then
    {| deckAnalysis := deckAnalysis st; swapOutIndices := swapOutIndices st;
       swapInIndices := toggle (swapInIndices st) index; isSideDeckMode := isSideDeckMode st |}
  else
    {| deckAnalysis := deckAnalysis st; swapOutIndices := toggle (swapOutIndices st) index;
       swapInIndices := swapInIndices st; isSideDeckMode := isSideDeckMode st |}.

(** [arr[idx]] *)
Definition js_get (l : list A) (idx : nat) : A := nth idx l undefined.

(** [xs.filter((_, idx) => p(idx))] *)
Definition filter_by_index (p : nat -> bool) (xs : list A) : list A :=
  map fst (List.filter (fun q => p (snd q)) (combine xs (seq 0 (length xs)))).

(** [filter_by_index] counting indices from [k]. *)
Definition fbi_from (k : nat) (p : nat -> bool) (xs : list A) : list A :=
  map fst (List.filter (fun q => p (snd q)) (combine xs (seq k (length xs)))).

Definition confirmSwap (st : SwapState A) : SwapState A :=
  match deckAnalysis st with
  | None => st
  | Some da =>
      if negb (Nat.eqb (length (swapInIndices st)) (length (swapOutIndices st))) then st
      else
        let movingOut := map (js_get (mainDetails da)) (swapOutIndices st) in
        let movingIn := map (js_get (sideDetails da)) (swapInIndices st) in
        let finalMain :=
          filter_by_index (fun idx => negb (set_has (swapOutIndices st) idx)) (mainDetails da)
            ++ movingIn in
        let finalSide :=
          filter_by_index (fun idx => negb (set_has (swapInIndices st) idx)) (sideDetails da)
            ++ movingOut in
        {| deckAnalysis := Some {| mainDetails := finalMain; extraDetails := extraDetails da;
                                   sideDetails := finalSide; countMain := length finalMain;
                                   countExtra := countExtra da; countSide := length finalSide |};
           swapOutIndices := []; swapInIndices := []; isSideDeckMode := false |}
  end.

End SideDecking.

End SideDeck.

(* ================================================================== *)
(** * Proofs *)

(** ** Pascal's triangle *)

Lemma choose_gt (n k : nat) : (n < k)%nat -> choose n k = 0%nat.
Proof.
  revert k; induction n as [|n IH]; intros [|k] Hk; simpl; try lia.
  rewrite !IH by lia. reflexivity.
Qed.

Lemma choose_diag (n : nat) : choose n n = 1%nat.
Proof.
  induction n as [|n IH]; simpl; [reflexivity|].
  rewrite IH, choose_gt by lia. reflexivity.
Qed.

Lemma choose_pos (n k : nat) : (k <= n)%nat -> (0 < choose n k)%nat.
Proof.
  revert k; induction n as [|n IH]; intros [|k] Hk; simpl; try lia.
  specialize (IH k ltac:(lia)). lia.
Qed.

Lemma choose_sym (n k : nat) : (k <= n)%nat -> choose n k = choose n (n - k).
Proof.
  revert k; induction n as [|n IH]; intros k Hk.
  - replace k with 0%nat by lia. reflexivity.
  - destruct k as [|k].
    + rewrite Nat.sub_0_r, choose_diag. reflexivity.
    + destruct (Nat.eq_dec k n) as [->|Hne].
      * rewrite choose_diag, Nat.sub_diag. reflexivity.
      * simpl. replace (n - k)%nat with (S (n - S k)) by lia. simpl.
        rewrite (IH k), (IH (S k)) by lia.
        replace (n - k)%nat with (S (n - S k)) by lia. lia.
Qed.

(** The identity the loop of [combinations] relies on:
    [(k+1) * C(n, k+1) = (n - k) * C(n, k)]. *)
Lemma choose_absorb (n k : nat) : (S k * choose n (S k) = (n - k) * choose n k)%nat.
Proof.
  revert k; induction n as [|n IH]; intros k.
  - simpl. lia.
  - destruct k as [|k].
    + specialize (IH 0%nat).
      assert (Hn0 : choose n 0 = 1%nat) by (destruct n; reflexivity).
      simpl in *. lia.
    + cbn [choose].
      pose proof (IH k) as H0. pose proof (IH (S k)) as H1.
      destruct (le_lt_dec n k) as [Hle|Hlt].
      * rewrite (choose_gt n (S k)), (choose_gt n (S (S k))) by lia.
        replace (S n - S k)%nat with 0%nat by lia. lia.
      * replace (S n - S k)%nat with (n - k)%nat by lia.
        replace (n - S k)%nat with (n - k - 1)%nat in H1 by lia.
        nia.
Qed.

Lemma chooseZ_0 (n : Z) : chooseZ n 0 = 1.
Proof. unfold chooseZ. destruct (Z.to_nat n); reflexivity. Qed.

Lemma chooseZ_pascal (n k : Z) : 0 <= n -> 0 <= k ->
  chooseZ (n + 1) (k + 1) = chooseZ n k + chooseZ n (k + 1).
Proof.
  intros Hn Hk. unfold chooseZ.
  rewrite !Z2Nat.inj_add by lia. rewrite !Nat.add_1_r. simpl. lia.
Qed.

Lemma chooseZ_gt (n k : Z) : 0 <= n -> n < k -> chooseZ n k = 0.
Proof. intros. unfold chooseZ. rewrite choose_gt by lia. reflexivity. Qed.

Lemma chooseZ_pos (n k : Z) : 0 <= k <= n -> 0 < chooseZ n k.
Proof. intros. unfold chooseZ. pose proof (choose_pos (Z.to_nat n) (Z.to_nat k)). lia. Qed.

(** ** The loop of [combinations] computes the binomial coefficient *)

Lemma combo_loop_step (n i : Z) : 1 <= i <= n ->
  Z.quot (chooseZ n (i - 1) * (n - i + 1)) i = chooseZ n i.
Proof.
  intros Hi.
  pose proof (choose_absorb (Z.to_nat n) (Z.to_nat (i - 1))) as H.
  replace (S (Z.to_nat (i - 1))) with (Z.to_nat i) in H by lia.
  apply (f_equal Z.of_nat) in H.
  rewrite !Nat2Z.inj_mul, Nat2Z.inj_sub in H by lia.
  rewrite !Z2Nat.id in H by lia.
  unfold chooseZ in *.
  set (c0 := Z.of_nat (choose (Z.to_nat n) (Z.to_nat (i - 1)))) in *.
  set (c1 := Z.of_nat (choose (Z.to_nat n) (Z.to_nat i))) in *.
  replace (c0 * (n - i + 1)) with (c1 * i) by lia.
  apply Z.quot_mul. lia.
Qed.

Lemma combo_loop_spec (n : Z) (fuel : nat) (i : Z) :
  1 <= i -> i - 1 + Z.of_nat fuel <= n ->
  combo_loop n fuel i (chooseZ n (i - 1)) = chooseZ n (i - 1 + Z.of_nat fuel).
Proof.
  revert i; induction fuel as [|f IH]; intros i Hi Hf; simpl.
  - f_equal. lia.
  - rewrite combo_loop_step by lia.
    replace (chooseZ n i) with (chooseZ n (i + 1 - 1)) by (f_equal; lia).
    rewrite IH by lia. f_equal. lia.
Qed.

Lemma combinations_in_range (n k : Z) : 0 <= k <= n -> combinations n k = chooseZ n k.
Proof.
  intros Hk. unfold combinations, combinations_compute.
  destruct (Z.ltb_spec k 0); [lia|]. destruct (Z.ltb_spec n k); [lia|]. simpl.
  destruct (Z.eqb_spec k 0) as [->|Hk0]; [rewrite chooseZ_0; reflexivity|].
  destruct (Z.eqb_spec k n) as [->|Hkn].
  { unfold chooseZ. rewrite choose_diag. reflexivity. }
  simpl.
  assert (Hloop : forall k', 0 <= k' <= n ->
            combo_loop n (Z.to_nat k') 1 1 = chooseZ n k').
  { intros k' Hk'. rewrite <- (chooseZ_0 n) at 2.
    replace 0 with (1 - 1) by lia. rewrite combo_loop_spec by lia.
    f_equal. lia. }
  destruct (Z.ltb_spec n (2 * k)).
  - rewrite Hloop by lia. unfold chooseZ.
    rewrite (choose_sym (Z.to_nat n) (Z.to_nat k)) by lia.
    f_equal. f_equal. lia.
  - apply Hloop. lia.
Qed.

Lemma combinations_out_of_range (n k : Z) : k < 0 \/ n < k -> combinations n k = 0.
Proof.
  intros Hk. unfold combinations, combinations_compute.
  destruct Hk as [Hk|Hk].
  - apply Z.ltb_lt in Hk. rewrite Hk. reflexivity.
  - apply Z.ltb_lt in Hk. rewrite Hk, orb_true_r. reflexivity.
Qed.

Lemma combinations_pos (n k : Z) : 0 <= k <= n -> 0 < combinations n k.
Proof. intros. rewrite combinations_in_range by lia. apply chooseZ_pos. lia. Qed.

(** The memo never changes a result: through a sound memo,
    [combinations_memo] returns [combinations n k] and keeps the memo
    sound. *)
Lemma combinations_memo_spec (memo : gmap (Z * Z) Z) (n k : Z) :
  memo_sound memo ->
  fst (combinations_memo memo n k) = combinations n k /\
  memo_sound (snd (combinations_memo memo n k)).
Proof.
  intros Hs. unfold combinations_memo, combinations, combinations_compute.
  destruct ((k <? 0) || (n <? k)); [split; [reflexivity|exact Hs]|].
  destruct ((k =? 0) || (k =? n)); [split; [reflexivity|exact Hs]|].
  set (k' := if n <? 2 * k then n - k else k).
  assert (Hins : memo_sound (<[(n, k') := combo_loop n (Z.to_nat k') 1 1]> memo)).
  { intros n2 k2 v Hv. destruct (decide ((n, k') = (n2, k2))) as [Heq|Hne].
    - rewrite Heq, lookup_insert_eq in Hv. injection Heq as <- <-. congruence.
    - rewrite lookup_insert_ne in Hv by exact Hne. apply Hs. exact Hv. }
  destruct (memo !! (n, k')) as [v|] eqn:Hm.
  - destruct (negb (v =? 0)); simpl; [|split; [reflexivity|exact Hins]].
    split; [apply Hs; exact Hm|exact Hs].
  - simpl. split; [reflexivity|exact Hins].
Qed.

(** ** Sums over integer ranges *)

Lemma In_range_from (a x : Z) (m : nat) :
  In x (range_from a m) <-> a <= x < a + Z.of_nat m.
Proof.
  revert a; induction m as [|m IH]; intros a; simpl; [lia|].
  rewrite IH. lia.
Qed.

Lemma range_from_S_end (a : Z) (m : nat) :
  range_from a (S m) = range_from a m ++ [a + Z.of_nat m].
Proof.
  revert a; induction m as [|m IH]; intros a.
  - simpl. f_equal. f_equal. lia.
  - change (range_from a (S (S m))) with (a :: range_from (a + 1) (S m)).
    rewrite IH. simpl. do 3 f_equal. lia.
Qed.

Lemma zsum_app {A} (f : A -> Z) (l1 l2 : list A) :
  zsum f (l1 ++ l2) = zsum f l1 + zsum f l2.
Proof. induction l1 as [|x l1 IH]; simpl; lia. Qed.

Lemma zsum_ext_in {A} (f g : A -> Z) (l : list A) :
  (forall x, In x l -> f x = g x) -> zsum f l = zsum g l.
Proof.
  induction l as [|x l IH]; intros H; simpl; [reflexivity|].
  rewrite H by (left; reflexivity). rewrite IH; [reflexivity|].
  intros y Hy. apply H. right. exact Hy.
Qed.

Lemma zsum_pascal (n : Z) (m : nat) : 0 <= n ->
  zsum (chooseZ (n + 1)) (range_from 0 (S m)) =
  zsum (chooseZ n) (range_from 0 (S m)) + zsum (chooseZ n) (range_from 0 m).
Proof.
  intros Hn. induction m as [|m IH].
  - simpl. rewrite !chooseZ_0. reflexivity.
  - rewrite (range_from_S_end 0 (S m)), !zsum_app, IH.
    rewrite (range_from_S_end 0 m), !zsum_app. cbn [zsum fold_right].
    replace (0 + Z.of_nat (S m)) with (Z.of_nat m + 1) by lia.
    replace (0 + Z.of_nat m) with (Z.of_nat m) by lia.
    rewrite chooseZ_pascal by lia. lia.
Qed.

(** Pascal's identity on the binomial coefficients: the row sums are
    powers of two. *)
Lemma zsum_chooseZ_row (n : nat) :
  zsum (chooseZ (Z.of_nat n)) (range_from 0 (S n)) = 2 ^ Z.of_nat n.
Proof.
  induction n as [|n IH]; [reflexivity|].
  rewrite Nat2Z.inj_succ, <- Z.add_1_r.
  rewrite zsum_pascal by lia.
  rewrite (range_from_S_end 0 (S n)), zsum_app. cbn [zsum fold_right].
  replace (0 + Z.of_nat (S n)) with (Z.of_nat n + 1) by lia.
  rewrite (chooseZ_gt (Z.of_nat n) (Z.of_nat n + 1)) by lia.
  rewrite IH, Z.pow_add_r by lia. lia.
Qed.

Lemma zsum_combinations_row (n : Z) : 0 <= n ->
  zsum (combinations n) (range_from 0 (Z.to_nat n + 1)) = 2 ^ n.
Proof.
  intros Hn.
  rewrite (zsum_ext_in _ (chooseZ n)).
  - rewrite Nat.add_1_r. rewrite <- (Z2Nat.id n) at 1 3 by lia.
    apply zsum_chooseZ_row.
  - intros k Hk. apply In_range_from in Hk. apply combinations_in_range. lia.
Qed.

(* ------------------------------------------------------------------ *)
(** ** Claims on [combinations] *)

(** C8: [combinations n k] is [0] when [k < 0] or [k > n], and [1] when
    [n >= 0] and [k = 0] or [k = n]. *)
Theorem combinations_edge_values (n k : Z) :
  ((k < 0 \/ n < k) -> combinations n k = 0) /\
  (0 <= n -> (k = 0 \/ k = n) -> combinations n k = 1).
Proof.
  split.
  - apply combinations_out_of_range.
  - intros Hn Hk. unfold combinations, combinations_compute.
    destruct (Z.ltb_spec k 0); [lia|]. destruct (Z.ltb_spec n k); [lia|].
    destruct Hk as [->| ->]; [reflexivity|]. rewrite Z.eqb_refl, orb_true_r. reflexivity.
Qed.

(** C9: for every [n] with [0 <= n] (in particular every [n <= 40]),
    [combinations n 0 + ... + combinations n n = 2 ^ n] exactly. *)
Theorem combinations_row_sum (n : Z) (Hn : 0 <= n) :
  zsum (combinations n) (range_from 0 (Z.to_nat n + 1)) = 2 ^ n.
Proof. exact (zsum_combinations_row n Hn). Qed.

Lemma combinations_row_sum_witness :
  0 <= 40 /\ zsum (combinations 40) (range_from 0 (Z.to_nat 40 + 1)) = 2 ^ 40.
Proof.
  split; [lia|]. apply (combinations_row_sum 40). lia.
Defined.

(* ------------------------------------------------------------------ *)
(** ** The enumeration of [calculateMultivariateHyper] *)

Lemma zsum_mul_l {A} (c : Z) (f : A -> Z) (l : list A) :
  zsum (fun x => c * f x) l = c * zsum f l.
Proof. induction l as [|x l IH]; simpl; [lia|]. rewrite IH. lia. Qed.

Lemma zsum_flat_map {A B} (f : B -> Z) (h : A -> list B) (l : list A) :
  zsum f (flat_map h l) = zsum (fun x => zsum f (h x)) l.
Proof. induction l as [|x l IH]; simpl; [reflexivity|]. rewrite zsum_app, IH. reflexivity. Qed.

Lemma zsum_map {A B} (f : B -> Z) (h : A -> B) (l : list A) :
  zsum f (map h l) = zsum (fun x => f (h x)) l.
Proof. induction l as [|x l IH]; simpl; [reflexivity|]. rewrite IH. reflexivity. Qed.

Lemma zsum_zero {A} (f : A -> Z) (l : list A) :
  (forall x, In x l -> f x = 0) -> zsum f l = 0.
Proof.
  intros H. rewrite (zsum_ext_in f (fun _ => 0)) by exact H.
  clear H. induction l as [|x l IH]; simpl; lia.
Qed.

Lemma zsum_range_trunc (f : Z -> Z) (a : Z) (m m' : nat) :
  (m' <= m)%nat ->
  (forall x, In x (range_from a m) -> a + Z.of_nat m' <= x -> f x = 0) ->
  zsum f (range_from a m) = zsum f (range_from a m').
Proof.
  revert a m'; induction m as [|m IH]; intros a m' Hm Hz.
  - replace m' with 0%nat by lia. reflexivity.
  - destruct m' as [|m'].
    + apply zsum_zero. intros x Hx. apply Hz; [exact Hx|].
      apply In_range_from in Hx. lia.
    + cbn [range_from zsum fold_right]. f_equal.
      apply (IH (a + 1) m'); [lia|]. intros x Hx Hle. apply Hz.
      * right. exact Hx.
      * lia.
Qed.

Lemma for_take_sum (body : Z -> Z -> Z) (h : Z -> Z) (fuel : nat) (t0 total : Z) :
  (forall take acc, In take (range_from t0 fuel) -> body take acc = acc + h take) ->
  for_take body fuel t0 total = total + zsum h (range_from t0 fuel).
Proof.
  revert t0 total; induction fuel as [|f IH]; intros t0 total Hb; simpl; [lia|].
  rewrite IH.
  - rewrite Hb by (left; reflexivity). lia.
  - intros take acc Ht. apply Hb. right. exact Ht.
Qed.

Lemma take_tuples_bounds (gs : list HyperGroup) (ts : list Z) :
  In ts (take_tuples gs) ->
  Forall2 (fun g t => minDesired g <= t <= maxDesired g) gs ts.
Proof.
  revert ts; induction gs as [|g gs IH]; intros ts Hin; simpl in Hin.
  - destruct Hin as [<-|[]]. constructor.
  - apply in_flat_map in Hin as [t [Ht Hin]].
    apply in_map_iff in Hin as [ts' [<- Hts']].
    apply In_range_from in Ht. constructor; [lia|]. apply IH. exact Hts'.
Qed.

Lemma take_tuples_sum_nonneg (gs : list HyperGroup) (ts : list Z) :
  Forall (fun g => 0 <= minDesired g) gs -> In ts (take_tuples gs) ->
  0 <= zsum (fun t => t) ts.
Proof.
  intros Hg Hin. apply take_tuples_bounds in Hin.
  induction Hin as [|g t gs ts Ht Hrest IH]; simpl; [lia|].
  inversion Hg; subst. specialize (IH ltac:(assumption)). lia.
Qed.

Lemma tuple_ways_nil (other rem : Z) :
  tuple_ways other [] rem =
  if (0 <=? rem) && (rem <=? other) then chooseZ other rem else 0.
Proof.
  unfold tuple_ways. simpl. rewrite Z.sub_0_r.
  destruct ((0 <=? rem) && (rem <=? other)); lia.
Qed.

(** Splitting off the first group: the spec's count is a sum over the
    first group's draw count. *)
Lemma tuple_ways_cons (other : Z) (g : HyperGroup) (gs : list HyperGroup) (rem : Z) :
  Forall (fun g => 0 <= minDesired g) gs ->
  tuple_ways other (g :: gs) rem =
  zsum (fun t => if t <=? rem then chooseZ (countInDeck g) t * tuple_ways other gs (rem - t)
                 else 0)
       (range_from (minDesired g) (Z.to_nat (maxDesired g - minDesired g + 1))).
Proof.
  intros Hg. unfold tuple_ways at 1. simpl take_tuples.
  rewrite zsum_flat_map. apply zsum_ext_in. intros t _.
  rewrite zsum_map. destruct (Z.leb_spec t rem) as [Hle|Hgt].
  - unfold tuple_ways. rewrite <- zsum_mul_l. apply zsum_ext_in. intros ts Hts.
    cbn [zsum fold_right group_ways].
    fold (zsum (fun t0 : Z => t0) ts).
    set (s := zsum (fun t0 : Z => t0) ts).
    replace (rem - (t + s)) with (rem - t - s) by lia.
    destruct (Z.leb_spec (t + s) rem), (Z.leb_spec s (rem - t)); try lia;
      simpl; [destruct (rem - t - s <=? other)|]; lia.
  - apply zsum_zero. intros ts Hts.
    pose proof (take_tuples_sum_nonneg gs ts Hg Hts).
    cbn [zsum fold_right]. fold (zsum (fun t0 : Z => t0) ts).
    destruct (Z.leb_spec (t + zsum (fun t0 : Z => t0) ts) rem); [lia|reflexivity].
Qed.

(** The recursive [solve] adds, to the running total, the current ways
    times the spec's count for the remaining groups. *)
Lemma solve_spec (other : Z) (gs : list HyperGroup) :
  Forall (fun g => 0 <= minDesired g /\ 0 <= countInDeck g) gs ->
  forall rem ways total, 0 <= rem ->
  solve other gs rem ways total = total + ways * tuple_ways other gs rem.
Proof.
  induction gs as [|g gs IH]; intros Hg rem ways total Hrem.
  - rewrite tuple_ways_nil. simpl.
    destruct (Z.ltb_spec rem 0); [lia|].
    destruct (Z.leb_spec rem other), (Z.leb_spec 0 rem); simpl; try lia.
    rewrite combinations_in_range by lia. lia.
  - inversion Hg as [|? ? [Hmin Hcnt] Hg']; subst.
    assert (Hmins : Forall (fun g => 0 <= minDesired g) gs)
      by (eapply Forall_impl; [exact Hg'|]; intros x [? ?]; assumption).
    rewrite tuple_ways_cons by exact Hmins.
    cbn [solve]. destruct (Z.ltb_spec rem 0); [lia|].
    set (maxTake := Z.min (Z.min rem (countInDeck g)) (maxDesired g)).
    rewrite Z.max_r by lia.
    rewrite (for_take_sum _
               (fun t => ways * (chooseZ (countInDeck g) t * tuple_ways other gs (rem - t)))).
    + f_equal. rewrite zsum_mul_l. f_equal. symmetry.
      rewrite (zsum_range_trunc _ (minDesired g) _ (Z.to_nat (maxTake - minDesired g + 1))).
      * apply zsum_ext_in. intros t Ht. apply In_range_from in Ht.
        destruct (Z.leb_spec t rem); [reflexivity|lia].
      * lia.
      * intros x Hx Hle. apply In_range_from in Hx.
        destruct (Z.leb_spec x rem); [|reflexivity].
        rewrite chooseZ_gt by lia. lia.
    + intros take acc Ht. apply In_range_from in Ht.
      rewrite combinations_in_range by lia.
      pose proof (chooseZ_pos (countInDeck g) take ltac:(lia)) as Hpos.
      destruct (Z.ltb_spec 0 (chooseZ (countInDeck g) take)); [|lia].
      rewrite IH by (assumption || lia). lia.
Qed.

Lemma totalInGroups_zsum (groups : list HyperGroup) :
  totalInGroups groups = zsum countInDeck groups.
Proof.
  unfold totalInGroups.
  assert (H : forall a, fold_left (fun acc g => acc + countInDeck g) groups a =
                        a + zsum countInDeck groups).
  { induction groups as [|g gs IH]; intros a; simpl; [lia|]. rewrite IH. lia. }
  rewrite H. lia.
Qed.

Lemma inject_Z_nonzero (z : Z) : z <> 0 -> ~ (inject_Z z == 0)%Q.
Proof. intros Hz H. unfold Qeq in H. simpl in H. lia. Qed.

(* ------------------------------------------------------------------ *)
(** ** Claims on [calculateMultivariateHyper] *)

(** C1: under the data-model invariants, [calculateMultivariateHyper]
    returns 100 times the number of successful hands (the sum over all
    take tuples within the [min, max] bounds, fitting the hand and the
    "other" remainder, of the product of the binomial coefficients)
    divided by [C(poolSize, handSize)]. *)
Theorem calculateMultivariateHyper_exact (poolSize handSize : Z) (groups : list HyperGroup)
    (Hinv : pool_invariants poolSize handSize groups) :
  (calculateMultivariateHyper poolSize handSize groups ==
   100 * (inject_Z (spec_successful_ways poolSize handSize groups) /
          inject_Z (chooseZ poolSize handSize)))%Q.
Proof.
  destruct Hinv as [Hh [Hg Hsum]].
  unfold calculateMultivariateHyper, spec_successful_ways.
  destruct (Z.ltb_spec poolSize handSize); [lia|].
  destruct (Z.ltb_spec handSize 0); [lia|]. cbn [orb].
  rewrite totalInGroups_zsum.
  destruct (Z.ltb_spec poolSize (zsum countInDeck groups)); [lia|].
  rewrite combinations_in_range by lia.
  pose proof (chooseZ_pos poolSize handSize ltac:(lia)).
  destruct (Z.eqb_spec (chooseZ poolSize handSize) 0); [lia|].
  rewrite solve_spec by
    (lia || (eapply Forall_impl; [exact Hg|]; intros x Hx; cbn beta in *; lia)).
  replace (0 + 1 * tuple_ways (poolSize - zsum countInDeck groups) groups handSize)
    with (tuple_ways (poolSize - zsum countInDeck groups) groups handSize) by lia.
  ring.
Qed.

Lemma calculateMultivariateHyper_exact_witness :
  pool_invariants 40 5 [tmp_group 3 1 3] /\
  (calculateMultivariateHyper 40 5 [tmp_group 3 1 3] ==
   100 * (inject_Z (spec_successful_ways 40 5 [tmp_group 3 1 3]) /
          inject_Z (chooseZ 40 5)))%Q.
Proof.
  assert (H : pool_invariants 40 5 [tmp_group 3 1 3]).
  { split; [lia|]. split; [repeat constructor; simpl; lia|]. simpl. lia. }
  split; [exact H|]. apply (calculateMultivariateHyper_exact 40 5 [tmp_group 3 1 3]).
  exact H.
Defined.

(** The spec's known value: one group of 3 copies, at least one drawn,
    40-card pool, 5-card hand. *)
Definition known_value_group : HyperGroup :=
  {| id := "g"; name := "g"; countInDeck := 3; minDesired := 1; maxDesired := 3 |}.

(** C2 (as stated): the result is within 0.005 of 39.76.  It is not. *)
Lemma calculateMultivariateHyper_known_value_counterexample :
  ~ (Qabs (calculateMultivariateHyper 40 5 [known_value_group] - (3976 # 100)) < (1 # 200))%Q.
Proof. intros H. vm_compute in H. discriminate H. Qed.

(** C2 (amended): the result is exactly [100 * 222111 / 658008]
    (= 100 * (1 - C(37,5) / C(40,5))), which is 33.76 to two decimal
    places. *)
Theorem calculateMultivariateHyper_known_value (* amended *) :
  (calculateMultivariateHyper 40 5 [known_value_group] == 100 * (222111 # 658008))%Q /\
  (Qabs (calculateMultivariateHyper 40 5 [known_value_group] - (3376 # 100)) < (1 # 200))%Q.
Proof. split; vm_compute; reflexivity. Qed.

(** C5: a hand larger than the deck, groups whose counts exceed the
    deck, or a zero total-combination count all give the result [0]. *)
Theorem calculateMultivariateHyper_zero_cases (deckSize handSize : Z) (groups : list HyperGroup) :
  (deckSize < handSize \/ deckSize < zsum countInDeck groups \/
   combinations deckSize handSize = 0) ->
  calculateMultivariateHyper deckSize handSize groups = 0%Q.
Proof.
  intros Hc. unfold calculateMultivariateHyper.
  destruct (Z.ltb_spec deckSize handSize); [reflexivity|].
  destruct (Z.ltb_spec handSize 0); [reflexivity|]. cbn [orb].
  rewrite totalInGroups_zsum.
  destruct (Z.ltb_spec deckSize (zsum countInDeck groups)); [reflexivity|].
  destruct (Z.eqb_spec (combinations deckSize handSize) 0); [reflexivity|].
  lia.
Qed.

Lemma calculateMultivariateHyper_zero_cases_witness :
  (5 < 6 \/ 5 < zsum countInDeck [tmp_group 3 1 3] \/ combinations 5 6 = 0) /\
  calculateMultivariateHyper 5 6 [tmp_group 3 1 3] = 0%Q.
Proof.
  assert (H : 5 < 6 \/ 5 < zsum countInDeck [tmp_group 3 1 3] \/ combinations 5 6 = 0)
    by (left; lia).
  split; [exact H|]. exact (calculateMultivariateHyper_zero_cases 5 6 _ H).
Defined.

(** C10: with no groups, every hand of a size between [0] and the deck
    size succeeds, and the result is exactly [100]. *)
Theorem calculateMultivariateHyper_no_groups (deckSize handSize : Z)
    (Hh : 0 <= handSize <= deckSize) :
  (calculateMultivariateHyper deckSize handSize [] == 100)%Q.
Proof.
  unfold calculateMultivariateHyper.
  destruct (Z.ltb_spec deckSize handSize); [lia|].
  destruct (Z.ltb_spec handSize 0); [lia|]. cbn [orb totalInGroups fold_left].
  destruct (Z.ltb_spec deckSize 0); [lia|].
  rewrite Z.sub_0_r.
  pose proof (combinations_pos deckSize handSize Hh) as Hpos.
  destruct (Z.eqb_spec (combinations deckSize handSize) 0); [lia|].
  cbn [solve]. destruct (Z.ltb_spec handSize 0); [lia|].
  destruct (Z.leb_spec handSize deckSize); [|lia].
  replace (0 + 1 * combinations deckSize handSize) with (combinations deckSize handSize) by lia.
  field. apply inject_Z_nonzero. lia.
Qed.

Lemma calculateMultivariateHyper_no_groups_witness :
  0 <= 5 <= 40 /\ (calculateMultivariateHyper 40 5 [] == 100)%Q.
Proof. split; [lia|]. apply (calculateMultivariateHyper_no_groups 40 5). lia. Defined.

(* ------------------------------------------------------------------ *)
(** ** [calculateSwissStandings] *)

Lemma swiss_loop_lookup (P R : Z) (Tc : Q) (fuel : nat) (w : Z) (i : nat) (s : SwissStanding) :
  swiss_loop P R Tc fuel w !! i = Some s ->
  (i < fuel)%nat /\ wins s = w - Z.of_nat i /\
  count s = (inject_Z (combinations R (w - Z.of_nat i)) / Tc * inject_Z P)%Q.
Proof.
  revert w i; induction fuel as [|f IH]; intros w i Hs; [discriminate Hs|].
  destruct i as [|i]; simpl in Hs.
  - injection Hs as <-. simpl. rewrite Z.sub_0_r. split; [lia|]. split; reflexivity.
  - apply IH in Hs as (Hi & Hw & Hc). split; [lia|].
    replace (w - Z.of_nat (S i)) with (w - 1 - Z.of_nat i) by lia. split; assumption.
Qed.

Lemma swiss_loop_count_sum (P R : Z) (Tc : Q) (fuel : nat) (w : Z) :
  (qsum count (swiss_loop P R Tc fuel w) ==
   inject_Z (zsum (combinations R) (range_from (w - Z.of_nat fuel + 1) fuel)) / Tc * inject_Z P)%Q.
Proof.
  revert w; induction fuel as [|f IH]; intros w; [simpl; unfold Qdiv; ring|].
  cbn [swiss_loop]. unfold qsum. cbn [fold_right count].
  fold (qsum count (swiss_loop P R Tc f (w - 1))).
  rewrite IH. replace (w - Z.of_nat (S f) + 1) with (w - Z.of_nat f) by lia.
  replace (w - 1 - Z.of_nat f + 1) with (w - Z.of_nat f) by lia.
  rewrite (range_from_S_end (w - Z.of_nat f) f) at 1.
  rewrite zsum_app. cbn [zsum fold_right].
  replace (w - Z.of_nat f + Z.of_nat f) with w by lia.
  rewrite !inject_Z_plus. unfold Qdiv. ring.
Qed.

Lemma Qpower_2_pos (R : Z) : 0 <= R -> (Qpower 2 R == inject_Z (2 ^ R))%Q.
Proof. intros HR. rewrite (Zpower_Qpower 2 R HR). reflexivity. Qed.

(** Expected counts add up to the number of players. *)
Lemma swiss_count_sum (numPlayers numRounds : Z) : 0 <= numRounds ->
  (qsum count (calculateSwissStandings numPlayers numRounds) == inject_Z numPlayers)%Q.
Proof.
  intros HR. unfold calculateSwissStandings. rewrite swiss_loop_count_sum.
  rewrite Z2Nat.id by lia. replace (numRounds - (numRounds + 1) + 1) with 0 by lia.
  replace (Z.to_nat (numRounds + 1)) with (Z.to_nat numRounds + 1)%nat by lia.
  rewrite zsum_combinations_row by exact HR.
  rewrite Qpower_2_pos by exact HR.
  field. apply inject_Z_nonzero. pose proof (Z.pow_pos_nonneg 2 numRounds). lia.
Qed.

(** C4: for every [numRounds >= 0] (and every [numPlayers], in particular
    every [numPlayers >= 0]) the expected counts of
    [calculateSwissStandings numPlayers numRounds] add up to
    [numPlayers]; for 64 players and 6 rounds the sum is within 1e-6 of
    64 and the 6-win entry has count 1. *)
Theorem swiss_standings_total (numPlayers numRounds : Z) (HP : 0 <= numPlayers)
    (HR : 0 <= numRounds) :
  (qsum count (calculateSwissStandings numPlayers numRounds) == inject_Z numPlayers)%Q /\
  (Qabs (qsum count (calculateSwissStandings 64 6) - 64) <= 1 # 1000000)%Q /\
  (exists s, In s (calculateSwissStandings 64 6) /\ wins s = 6 /\ (count s == 1)%Q).
Proof.
  split; [apply swiss_count_sum; exact HR|].
  split.
  - rewrite (swiss_count_sum 64 6) by lia. vm_compute. discriminate.
  - eexists. split; [left; reflexivity|]. split; [reflexivity|]. vm_compute. reflexivity.
Qed.

Lemma swiss_standings_total_witness :
  0 <= 64 /\ 0 <= 6 /\
  (qsum count (calculateSwissStandings 64 6) == inject_Z 64)%Q.
Proof.
  split; [lia|]. split; [lia|].
  apply (swiss_standings_total 64 6); lia.
Defined.

(* ------------------------------------------------------------------ *)
(** ** The chance map of [calculateTopXProbability] *)

Lemma Qlt_bool_iff (a b : Q) : Qlt_bool a b = true <-> (a < b)%Q.
Proof.
  unfold Qlt_bool. rewrite negb_true_iff. split.
  - intros H. apply Qnot_le_lt. intros H'. apply Qle_bool_iff in H'. congruence.
  - intros H. destruct (Qle_bool b a) eqn:E; [|reflexivity].
    apply Qle_bool_iff in E. exfalso. apply (Qlt_not_le a b); assumption.
Qed.

Lemma chance_loop_other (T : Q) (l : list SwissStanding) (c : Q) (m : gmap Z Q) (k : Z) :
  (forall s, In s l -> wins s <> k) ->
  chance_loop T l c m !! k = m !! k.
Proof.
  revert c m; induction l as [|s l IH]; intros c m Hk; simpl; [reflexivity|].
  rewrite IH.
  - apply lookup_insert_ne. apply Hk. left. reflexivity.
  - intros s' Hs'. apply Hk. right. exact Hs'.
Qed.

(** The value stored for the bucket at position [i] is the bucket chance
    computed from the running total before it, provided no later bucket
    has the same win count. *)
Lemma chance_loop_at (T : Q) (l : list SwissStanding) (c : Q) (m : gmap Z Q)
    (i : nat) (s : SwissStanding) :
  l !! i = Some s ->
  (forall s', In s' (drop (S i) l) -> wins s' <> wins s) ->
  exists prev, (prev == c + qsum count (take i l))%Q /\
    chance_loop T l c m !! wins s = Some (bucket_chance T prev (prev + count s) (count s)).
Proof.
  revert c m i; induction l as [|s0 l IH]; intros c m i Hi Hdrop; [discriminate Hi|].
  destruct i as [|i]; simpl in Hi.
  - injection Hi as ->. exists c. split; [simpl; ring|].
    simpl. rewrite chance_loop_other by exact Hdrop. apply lookup_insert_eq.
  - destruct (IH (c + count s0)%Q (<[wins s0 := bucket_chance T c (c + count s0) (count s0)]> m)
                i Hi Hdrop) as [prev [Hprev Hlook]].
    exists prev. split; [rewrite Hprev; simpl; ring|]. exact Hlook.
Qed.

Lemma qsum_app {A} (f : A -> Q) (l1 l2 : list A) :
  (qsum f (l1 ++ l2) == qsum f l1 + qsum f l2)%Q.
Proof. induction l1 as [|x l1 IH]; simpl; [ring|]. rewrite IH. ring. Qed.

Lemma qsum_nonpos {A} (f : A -> Q) (l : list A) :
  (forall x, In x l -> f x <= 0)%Q -> (qsum f l <= 0)%Q.
Proof.
  induction l as [|x l IH]; intros H; simpl; [apply Qle_refl|].
  assert (f x <= 0)%Q by (apply H; left; reflexivity).
  assert (qsum f l <= 0)%Q by (apply IH; intros y Hy; apply H; right; exact Hy).
  lra.
Qed.

(** Every entry's count has the sign of the number of players. *)
Lemma swiss_count_sign (P R : Z) (s : SwissStanding) :
  In s (calculateSwissStandings P R) ->
  ((0 < P)%Z -> 0 < count s)%Q /\ ((P <= 0)%Z -> count s <= 0)%Q.
Proof.
  intros Hin. apply list_elem_of_In, list_elem_of_lookup in Hin as [i Hi].
  unfold calculateSwissStandings in Hi.
  apply swiss_loop_lookup in Hi as (Hi & _ & Hc). rewrite Hc.
  assert (HR : 0 <= R) by lia.
  rewrite Qpower_2_pos by exact HR.
  pose proof (combinations_pos R (R - Z.of_nat i) ltac:(lia)) as Hpos.
  pose proof (Z.pow_pos_nonneg 2 R ltac:(lia)) as H2.
  set (x := (inject_Z (combinations R (R - Z.of_nat i)) / inject_Z (2 ^ R))%Q).
  assert (Hx : (0 < x)%Q).
  { unfold x. apply Qlt_shift_div_l.
    - unfold Qlt. simpl. lia.
    - rewrite Qmult_0_l. unfold Qlt. simpl. lia. }
  split; intros HP.
  - assert (0 < inject_Z P)%Q by (unfold Qlt; simpl; lia). nra.
  - assert (inject_Z P <= 0)%Q by (unfold Qle; simpl; lia). nra.
Qed.

Lemma swiss_wins_distinct (P R : Z) (i : nat) (s : SwissStanding) :
  calculateSwissStandings P R !! i = Some s ->
  forall s', In s' (drop (S i) (calculateSwissStandings P R)) -> wins s' <> wins s.
Proof.
  intros Hi s' Hs'. unfold calculateSwissStandings in *.
  apply list_elem_of_In, list_elem_of_lookup in Hs' as [j Hj].
  rewrite lookup_drop in Hj.
  apply swiss_loop_lookup in Hi as (_ & Hw & _).
  apply swiss_loop_lookup in Hj as (_ & Hw' & _). lia.
Qed.

(** Under the guard [targetRank < totalPlayers] of
    [calculateTopXProbability], no bucket has both its running total
    before it at or above the target and its total after it at or below
    the target. *)
Lemma bucket_not_both (totalPlayers totalRounds targetRank : Z) (i : nat) (s : SwissStanding) :
  targetRank < totalPlayers ->
  calculateSwissStandings totalPlayers totalRounds !! i = Some s ->
  (inject_Z targetRank <= cumulative_before (calculateSwissStandings totalPlayers totalRounds) i)%Q ->
  (cumulative_before (calculateSwissStandings totalPlayers totalRounds) i + count s
     <= inject_Z targetRank)%Q ->
  False.
Proof.
  intros Hguard Hs Hb Ha.
  set (l := calculateSwissStandings totalPlayers totalRounds) in *.
  unfold cumulative_before in *.
  assert (Hin : In s l) by (apply list_elem_of_In, list_elem_of_lookup; exists i; exact Hs).
  assert (HTP : (inject_Z targetRank < inject_Z totalPlayers)%Q) by (unfold Qlt; simpl; lia).
  destruct (Z.lt_ge_cases 0 totalPlayers) as [HP|HP].
  - pose proof (proj1 (swiss_count_sign _ _ _ Hin) HP). lra.
  - assert (HR : 0 <= totalRounds).
    { pose proof Hs as Hs'. unfold l, calculateSwissStandings in Hs'.
      apply swiss_loop_lookup in Hs' as (Hi & _). lia. }
    pose proof (swiss_count_sum totalPlayers totalRounds HR) as Htot. fold l in Htot.
    rewrite <- (take_drop_middle l i s Hs) in Htot at 1.
    rewrite qsum_app in Htot. simpl in Htot.
    assert (Hrest : (qsum count (drop (S i) l) <= 0)%Q).
    { apply qsum_nonpos. intros x Hx. apply (swiss_count_sign totalPlayers totalRounds).
      - fold l. rewrite <- (take_drop (S i) l). apply in_or_app. right. exact Hx.
      - lia. }
    lra.
Qed.

(** C3: for the bucket at position [i] of the standings (win count
    [wins s], size [count s]), with [cumulativeBefore] the total of the
    buckets before it: if the cutoff falls strictly inside the bucket
    the chance stored for [wins s] is
    [(targetRank - cumulativeBefore) / count s]; if the total after it
    is at most [targetRank] the chance is [1]; if the total before it is
    already at least [targetRank] the chance is [0].  The map is built
    only past the guard [targetRank < totalPlayers]. *)
Theorem topX_bucket_chance (totalPlayers totalRounds targetRank : Z) (i : nat) (s : SwissStanding)
    (Hguard : targetRank < totalPlayers)
    (Hs : calculateSwissStandings totalPlayers totalRounds !! i = Some s) :
  let before := cumulative_before (calculateSwissStandings totalPlayers totalRounds) i in
  let T := inject_Z targetRank in
  let chance := makeItChanceMap totalPlayers totalRounds targetRank !! wins s in
  ((before < T /\ T < before + count s)%Q ->
     exists q, chance = Some q /\ (q == (T - before) / count s)%Q) /\
  ((before + count s <= T)%Q -> exists q, chance = Some q /\ (q == 1)%Q) /\
  ((T <= before)%Q -> exists q, chance = Some q /\ (q == 0)%Q).
Proof.
  intros before T chance.
  pose proof (bucket_not_both totalPlayers totalRounds targetRank i s Hguard Hs) as Hnb.
  fold before T in Hnb.
  destruct (chance_loop_at T (calculateSwissStandings totalPlayers totalRounds) 0 ∅ i s Hs
              (swiss_wins_distinct _ _ i s Hs)) as [prev [Hprev Hlook]].
  assert (Hpb : (prev == before)%Q) by (rewrite Hprev; unfold before, cumulative_before; ring).
  unfold chance, makeItChanceMap. fold T. rewrite Hlook.
  unfold bucket_chance.
  destruct (Qle_bool (prev + count s) T) eqn:E1;
    [apply Qle_bool_iff in E1|
     assert (E1' : ~ (prev + count s <= T)%Q) by (intros H; apply Qle_bool_iff in H; congruence)];
  (destruct (Qlt_bool prev T) eqn:E2;
    [apply Qlt_bool_iff in E2|
     assert (E2' : ~ (prev < T)%Q) by (intros H; apply Qlt_bool_iff in H; congruence)]);
  (split; [|split]); intros H; eexists; (split; [reflexivity|]);
  try reflexivity; try (rewrite Hpb; reflexivity); exfalso; try lra.
  all: apply Hnb; lra.
Qed.

Lemma topX_bucket_chance_witness :
  8 < 64 /\
  calculateSwissStandings 64 6 !! 2%nat =
    Some {| wins := 4; losses := 2; count := 960 # 64; lowerBound := 15; upperBound := 15 |} /\
  exists q, makeItChanceMap 64 6 8 !! 4 = Some q /\
    (q == (inject_Z 8 - cumulative_before (calculateSwissStandings 64 6) 2) / (960 # 64))%Q.
Proof.
  assert (H1 : 8 < 64) by lia.
  assert (H2 : calculateSwissStandings 64 6 !! 2%nat =
    Some {| wins := 4; losses := 2; count := 960 # 64; lowerBound := 15; upperBound := 15 |})
    by (vm_compute; reflexivity).
  split; [exact H1|]. split; [exact H2|].
  apply (topX_bucket_chance 64 6 8 2 _ H1 H2).
  vm_compute. split; reflexivity.
Defined.

(* ------------------------------------------------------------------ *)
(** ** Claims on [calculateTopXProbability] and [calculateProbabilities] *)

(** C6: a record with more games than rounds gives [0]; otherwise a
    cutoff at or beyond the field size gives [100]; in particular
    [calculateTopXProbability 64 6 64 0 0 = 100]. *)
Theorem topX_guards (totalPlayers totalRounds targetRank currentWins currentLosses : Z) :
  (totalRounds < currentWins + currentLosses ->
   calculateTopXProbability totalPlayers totalRounds targetRank currentWins currentLosses = 0%Q) /\
  (currentWins + currentLosses <= totalRounds -> totalPlayers <= targetRank ->
   calculateTopXProbability totalPlayers totalRounds targetRank currentWins currentLosses = 100%Q) /\
  calculateTopXProbability 64 6 64 0 0 = 100%Q.
Proof.
  unfold calculateTopXProbability. split; [|split].
  - intros H. destruct (Z.ltb_spec (totalRounds - (currentWins + currentLosses)) 0);
      [reflexivity|lia].
  - intros H1 H2. destruct (Z.ltb_spec (totalRounds - (currentWins + currentLosses)) 0); [lia|].
    destruct (Z.leb_spec totalPlayers targetRank); [reflexivity|lia].
  - reflexivity.
Qed.

Lemma topX_guards_witness :
  calculateTopXProbability 64 6 8 5 2 = 0%Q /\ calculateTopXProbability 64 6 64 3 1 = 100%Q.
Proof.
  destruct (topX_guards 64 6 8 5 2) as [H1 _].
  destruct (topX_guards 64 6 64 3 1) as [_ [H2 _]].
  split; [apply H1; lia|apply H2; lia].
Defined.

(** C7: in [calculateProbabilities 40 3 5] the row for [0] copies has
    at-least probability [100], and the at-least probabilities do not
    increase from one row to the next. *)
Theorem calculateProbabilities_40_3_5 :
  (exists r, calculateProbabilities 40 3 5 !! 0%nat = Some r /\
             drawCount r = 0 /\ (cumulativeAtLeast r == 100)%Q) /\
  (forall (i : nat) (r r' : ProbRow),
     calculateProbabilities 40 3 5 !! i = Some r ->
     calculateProbabilities 40 3 5 !! S i = Some r' ->
     (cumulativeAtLeast r' <= cumulativeAtLeast r)%Q).
Proof.
  split.
  - eexists. split; [vm_compute; reflexivity|]. split; vm_compute; reflexivity.
  - intros i r r' H1 H2.
    destruct i as [|[|[|[|i]]]]; vm_compute in H1, H2;
      try discriminate; injection H1 as <-; injection H2 as <-;
      apply Qle_bool_iff; vm_compute; reflexivity.
Qed.

Lemma combinations_edge_values_witness :
  combinations 5 7 = 0 /\ combinations 5 (-1) = 0 /\ combinations 5 0 = 1 /\ combinations 5 5 = 1.
Proof.
  destruct (combinations_edge_values 5 7) as [A _].
  destruct (combinations_edge_values 5 (-1)) as [B _].
  destruct (combinations_edge_values 5 0) as [_ C].
  destruct (combinations_edge_values 5 5) as [_ D].
  split; [apply A; lia|]. split; [apply B; lia|]. split; [apply C; lia|]. apply D; lia.
Defined.

(* ================================================================== *)
(** * Further properties of the code *)

(** ** [combinations] *)

Lemma combinations_chooseZ (n k : Z) : 0 <= n -> 0 <= k -> combinations n k = chooseZ n k.
Proof.
  intros Hn Hk. destruct (Z.le_gt_cases k n).
  - apply combinations_in_range. lia.
  - rewrite combinations_out_of_range by lia. rewrite chooseZ_gt by lia. reflexivity.
Qed.

Lemma combinations_sym (n k : Z) : combinations n k = combinations n (n - k).
Proof.
  destruct (Z.le_gt_cases 0 k), (Z.le_gt_cases k n).
  - rewrite !combinations_in_range by lia. unfold chooseZ.
    rewrite (choose_sym (Z.to_nat n) (Z.to_nat k)) by lia. do 2 f_equal. lia.
  - rewrite !combinations_out_of_range by lia. reflexivity.
  - rewrite !combinations_out_of_range by lia. reflexivity.
  - rewrite !combinations_out_of_range by lia. reflexivity.
Qed.

(** [combinations] is symmetric on every pair of integers:
    [combinations n k = combinations n (n - k)]. *)
Theorem combinations_symmetric (n k : Z) : combinations n k = combinations n (n - k).
Proof. apply combinations_sym. Qed.

Lemma combinations_pascal (n k : Z) : 0 <= n ->
  combinations (n + 1) (k + 1) = combinations n k + combinations n (k + 1).
Proof.
  intros Hn. destruct (Z.lt_trichotomy k (-1)) as [Hk|[Hk|Hk]].
  - rewrite !combinations_out_of_range by lia. reflexivity.
  - subst k. simpl. rewrite (combinations_out_of_range n (-1)) by lia.
    rewrite !combinations_chooseZ by lia. rewrite !chooseZ_0. reflexivity.
  - rewrite !combinations_chooseZ by lia. apply chooseZ_pascal; lia.
Qed.

(** Pascal's rule holds for [combinations] at every [k], for [n >= 0]. *)
Theorem combinations_pascal_rule (n k : Z) (Hn : 0 <= n) :
  combinations (n + 1) (k + 1) = combinations n k + combinations n (k + 1).
Proof. exact (combinations_pascal n k Hn). Qed.

Lemma combinations_pascal_rule_witness :
  0 <= 7 /\ combinations (7 + 1) (3 + 1) = combinations 7 3 + combinations 7 (3 + 1).
Proof. split; [lia|]. apply combinations_pascal_rule. lia. Defined.

Lemma run_combinations_sound (memo : gmap (Z * Z) Z) (calls : list (Z * Z)) :
  memo_sound memo ->
  run_combinations memo calls = map (fun '(n, k) => combinations n k) calls.
Proof.
  revert memo; induction calls as [|[n k] calls IH]; intros memo Hs; [reflexivity|].
  simpl. pose proof (combinations_memo_spec memo n k Hs) as [Hv Hs'].
  destruct (combinations_memo memo n k) as [v memo'] eqn:E. simpl in *.
  rewrite Hv, IH by exact Hs'. reflexivity.
Qed.

(** The memo never changes a result: any sequence of [combinations]
    calls made from the initial empty memo returns what the same calls
    return without the memo. *)
Theorem combinations_memo_transparent (calls : list (Z * Z)) :
  run_combinations ∅ calls = map (fun '(n, k) => combinations n k) calls.
Proof.
  apply run_combinations_sound. intros n k v Hv. rewrite lookup_empty in Hv. discriminate.
Qed.

(** ** Vandermonde's identity and the range of [calculateMultivariateHyper] *)

Lemma zsum_range_shift (f : Z -> Z) (a : Z) (m : nat) :
  zsum f (range_from (a + 1) m) = zsum (fun x => f (x + 1)) (range_from a m).
Proof.
  revert a; induction m as [|m IH]; intros a; [reflexivity|].
  cbn [range_from zsum fold_right]. fold (zsum f (range_from (a + 1 + 1) m)).
  fold (zsum (fun x => f (x + 1)) (range_from (a + 1) m)). rewrite IH. reflexivity.
Qed.

Lemma range_from_app (a : Z) (p q : nat) :
  range_from a (p + q) = range_from a p ++ range_from (a + Z.of_nat p) q.
Proof.
  revert a; induction p as [|p IH]; intros a; simpl.
  - rewrite Z.add_0_r. reflexivity.
  - rewrite IH. do 3 f_equal. lia.
Qed.

Lemma zsum_nonneg {A} (f : A -> Z) (l : list A) :
  (forall x, In x l -> 0 <= f x) -> 0 <= zsum f l.
Proof.
  induction l as [|x l IH]; intros H; simpl; [lia|].
  pose proof (H x (or_introl eq_refl)).
  assert (0 <= zsum f l) by (apply IH; intros y Hy; apply H; right; exact Hy). lia.
Qed.

Lemma zsum_le {A} (f g : A -> Z) (l : list A) :
  (forall x, In x l -> f x <= g x) -> zsum f l <= zsum g l.
Proof.
  induction l as [|x l IH]; intros H; simpl; [lia|].
  pose proof (H x (or_introl eq_refl)).
  assert (zsum f l <= zsum g l) by (apply IH; intros y Hy; apply H; right; exact Hy). lia.
Qed.

Lemma zsum_prefix_le (f : Z -> Z) (a : Z) (p q : nat) :
  (forall x, 0 <= f x) -> (p <= q)%nat ->
  zsum f (range_from a p) <= zsum f (range_from a q).
Proof.
  intros Hf Hpq. replace q with (p + (q - p))%nat by lia.
  rewrite range_from_app, zsum_app.
  pose proof (zsum_nonneg f (range_from (a + Z.of_nat p) (q - p)) (fun x _ => Hf x)). lia.
Qed.

(** A non-negative function that vanishes from [n] on sums over any
    range of non-negative integers to at most its sum over [0 .. n-1]. *)
Lemma zsum_support_le (f : Z -> Z) (a : Z) (m n : nat) :
  0 <= a -> (forall x, 0 <= f x) -> (forall x, Z.of_nat n <= x -> f x = 0) ->
  zsum f (range_from a m) <= zsum f (range_from 0 n).
Proof.
  intros Ha Hf Hz.
  set (a' := Z.to_nat a).
  assert (Hpre : zsum f (range_from a m) <= zsum f (range_from 0 (a' + m))).
  { rewrite range_from_app, zsum_app. replace (0 + Z.of_nat a') with a by lia.
    pose proof (zsum_nonneg f (range_from 0 a') (fun x _ => Hf x)). lia. }
  set (M := Nat.max (a' + m) n).
  assert (H1 : zsum f (range_from 0 (a' + m)) <= zsum f (range_from 0 M))
    by (apply zsum_prefix_le; [exact Hf|lia]).
  assert (H2 : zsum f (range_from 0 M) = zsum f (range_from 0 n)).
  { apply zsum_range_trunc; [lia|]. intros x _ Hx. apply Hz. lia. }
  lia.
Qed.

Lemma combinations_0_0 : combinations 0 0 = 1.
Proof. reflexivity. Qed.

Lemma combinations_n_0 (n : Z) : 0 <= n -> combinations n 0 = 1.
Proof. intros Hn. rewrite combinations_chooseZ by lia. apply chooseZ_0. Qed.

Lemma combinations_nonneg (n k : Z) : 0 <= combinations n k.
Proof.
  destruct (Z.le_gt_cases 0 k), (Z.le_gt_cases k n).
  - pose proof (combinations_pos n k). lia.
  - rewrite combinations_out_of_range by lia. lia.
  - rewrite combinations_out_of_range by lia. lia.
  - rewrite combinations_out_of_range by lia. lia.
Qed.

(** Vandermonde's identity for [combinations]. *)
Lemma vandermonde (c : nat) (N r : Z) : 0 <= N ->
  zsum (fun t => combinations (Z.of_nat c) t * combinations N (r - t)) (range_from 0 (S c)) =
  combinations (Z.of_nat c + N) r.
Proof.
  revert r; induction c as [|c IH]; intros r HN.
  - cbn [range_from zsum fold_right]. change (Z.of_nat 0) with 0. rewrite combinations_0_0, Z.sub_0_r, Z.add_0_l. lia.
  - set (g := fun t => combinations (Z.of_nat c) t * combinations N (r - t)).
    assert (Hlast : zsum g (range_from 0 (S (S c))) = zsum g (range_from 0 (S c))).
    { rewrite (range_from_S_end 0 (S c)), zsum_app. cbn [zsum fold_right].
      unfold g at 2. rewrite (combinations_out_of_range (Z.of_nat c)) by lia. lia. }
    assert (Hfirst : zsum g (range_from 0 (S (S c))) =
                     g 0 + zsum (fun x => g (x + 1)) (range_from 0 (S c))).
    { change (range_from 0 (S (S c))) with (0 :: range_from (0 + 1) (S c)).
      cbn [zsum fold_right]. fold (zsum g (range_from (0 + 1) (S c))).
      rewrite zsum_range_shift. reflexivity. }
    pose proof (IH r HN) as IHr. pose proof (IH (r - 1) HN) as IHr1. fold g in IHr.
    change (range_from 0 (S (S c))) with (0 :: range_from (0 + 1) (S c)).
    cbn [zsum fold_right].
    fold (zsum (fun t => combinations (Z.of_nat (S c)) t * combinations N (r - t))
            (range_from (0 + 1) (S c))).
    rewrite zsum_range_shift.
    rewrite (zsum_ext_in _ (fun x => combinations (Z.of_nat c) x * combinations N (r - 1 - x)
                                    + g (x + 1))).
    2:{ intros x Hx. apply In_range_from in Hx. unfold g.
        replace (Z.of_nat (S c)) with (Z.of_nat c + 1) by lia.
        rewrite combinations_pascal by lia.
        replace (r - (x + 1)) with (r - 1 - x) by lia. lia. }
    assert (Hsplit : forall (f1 f2 : Z -> Z) l,
               zsum (fun x => f1 x + f2 x) l = zsum f1 l + zsum f2 l).
    { intros f1 f2 l. induction l as [|y l IHl]; simpl; lia. }
    rewrite Hsplit, IHr1.
    rewrite Hlast in Hfirst. rewrite IHr in Hfirst.
    unfold g in Hfirst at 1. rewrite combinations_n_0, Z.sub_0_r in Hfirst by lia.
    replace (Z.of_nat (S c)) with (Z.of_nat c + 1) by lia.
    rewrite combinations_n_0 by lia. rewrite Z.sub_0_r.
    replace (Z.of_nat c + 1 + N) with (Z.of_nat c + N + 1) by lia.
    pose proof (combinations_pascal (Z.of_nat c + N) (r - 1) ltac:(lia)) as HP.
    replace (r - 1 + 1) with r in HP by lia. lia.
Qed.

Lemma chooseZ_nonneg (n k : Z) : 0 <= chooseZ n k.
Proof. unfold chooseZ. lia. Qed.

Lemma group_ways_nonneg (gs : list HyperGroup) (ts : list Z) : 0 <= group_ways gs ts.
Proof.
  revert ts; induction gs as [|g gs IH]; intros [|t ts]; simpl; try lia.
  pose proof (chooseZ_nonneg (countInDeck g) t). specialize (IH ts). nia.
Qed.

Lemma tuple_ways_nonneg (other : Z) (gs : list HyperGroup) (rem : Z) :
  0 <= tuple_ways other gs rem.
Proof.
  unfold tuple_ways. apply zsum_nonneg. intros ts _.
  destruct (_ && _); [|lia].
  pose proof (group_ways_nonneg gs ts). pose proof (chooseZ_nonneg other (rem - zsum (fun t => t) ts)).
  nia.
Qed.

(** The spec's count with arbitrary [[min, max]] bounds never exceeds
    the number of all hands, [C(other + sum of counts, rem)]. *)
Lemma tuple_ways_le_total (other : Z) (gs : list HyperGroup) :
  0 <= other ->
  Forall (fun g => 0 <= minDesired g /\ 0 <= countInDeck g) gs ->
  forall rem, 0 <= rem ->
  tuple_ways other gs rem <= combinations (other + zsum countInDeck gs) rem.
Proof.
  intros Ho. induction gs as [|g gs IH]; intros Hg rem Hrem.
  - rewrite tuple_ways_nil. simpl. rewrite Z.add_0_r.
    destruct (Z.leb_spec 0 rem), (Z.leb_spec rem other); simpl.
    + rewrite combinations_in_range by lia. lia.
    + pose proof (combinations_nonneg other rem). lia.
    + lia.
    + pose proof (combinations_nonneg other rem). lia.
  - inversion Hg as [|? ? [Hmin Hcnt] Hg']; subst.
    assert (Hmins : Forall (fun g => 0 <= minDesired g) gs)
      by (eapply Forall_impl; [exact Hg'|]; intros x [? ?]; assumption).
    rewrite tuple_ways_cons by exact Hmins.
    assert (HN : 0 <= other + zsum countInDeck gs).
    { pose proof (zsum_nonneg countInDeck gs) as Hs.
      assert (0 <= zsum countInDeck gs).
      { apply Hs. intros x Hx. rewrite Forall_forall in Hg'. apply Hg'. apply list_elem_of_In. exact Hx. }
      lia. }
    set (c := countInDeck g). set (N := other + zsum countInDeck gs).
    set (H := fun t => combinations c t * combinations N (rem - t)).
    transitivity (zsum H (range_from (minDesired g) (Z.to_nat (maxDesired g - minDesired g + 1)))).
    + apply zsum_le. intros t Ht. apply In_range_from in Ht. unfold H.
      destruct (Z.leb_spec t rem).
      * rewrite combinations_chooseZ by lia.
        pose proof (IH Hg' (rem - t) ltac:(lia)) as Hle.
        pose proof (chooseZ_nonneg c t). pose proof (tuple_ways_nonneg other gs (rem - t)).
        fold N in Hle. nia.
      * pose proof (combinations_nonneg c t). pose proof (combinations_nonneg N (rem - t)). nia.
    + pose proof (vandermonde (Z.to_nat c) N rem HN) as Hv.
      rewrite Z2Nat.id in Hv by lia.
      replace (other + zsum countInDeck (g :: gs)) with (c + N)
        by (unfold N, c; change (zsum countInDeck (g :: gs))
              with (countInDeck g + zsum countInDeck gs); lia).
      rewrite <- Hv. fold H.
      apply zsum_support_le; [lia| |].
      * intros x. unfold H. pose proof (combinations_nonneg c x).
        pose proof (combinations_nonneg N (rem - x)). nia.
      * intros x Hx. unfold H. rewrite (combinations_out_of_range c x) by lia. lia.
Qed.

Lemma for_take_ext (b1 b2 : Z -> Z -> Z) (fuel : nat) (take total : Z) :
  (forall t acc, b1 t acc = b2 t acc) ->
  for_take b1 fuel take total = for_take b2 fuel take total.
Proof.
  intros Hb. revert take total; induction fuel as [|f IH]; intros take total; simpl;
    [reflexivity|]. rewrite Hb. apply IH.
Qed.

Lemma for_take_id (b : Z -> Z -> Z) (fuel : nat) (take total : Z) :
  (forall t acc, b t acc = acc) -> for_take b fuel take total = total.
Proof.
  intros Hb. revert take total; induction fuel as [|f IH]; intros take total; simpl;
    [reflexivity|]. rewrite Hb. apply IH.
Qed.

(** [solve] reads a group's minimum only through [Math.max(0, min)]. *)
Lemma solve_clamp (other : Z) (gs : list HyperGroup) :
  forall rem ways total,
  solve other gs rem ways total = solve other (map clamp_min gs) rem ways total.
Proof.
  induction gs as [|g gs IH]; intros rem ways total; [reflexivity|].
  cbn [solve map clamp_min countInDeck minDesired maxDesired].
  destruct (rem <? 0); [reflexivity|].
  rewrite (Z.max_r 0 (Z.max 0 (minDesired g))) by lia.
  apply for_take_ext. intros t acc. rewrite IH. reflexivity.
Qed.

(** A group with a negative count has no positive binomial at any
    take, so no path through [solve] ever adds to the total. *)
Lemma solve_negative_count (other : Z) (gs : list HyperGroup) :
  Exists (fun g => countInDeck g < 0) gs ->
  forall rem ways total, solve other gs rem ways total = total.
Proof.
  induction 1 as [g gs Hg|g gs Hex IH]; intros rem ways total;
    cbn [solve]; destruct (rem <? 0); try reflexivity.
  - apply for_take_id. intros t acc.
    rewrite combinations_out_of_range by lia. reflexivity.
  - apply for_take_id. intros t acc.
    destruct (0 <? combinations (countInDeck g) t); [apply IH|reflexivity].
Qed.

Lemma counts_sign_cases (gs : list HyperGroup) :
  Forall (fun g => 0 <= countInDeck g) gs \/ Exists (fun g => countInDeck g < 0) gs.
Proof.
  induction gs as [|g gs [IH|IH]]; [left; constructor| |right; right; exact IH].
  destruct (Z.le_gt_cases 0 (countInDeck g)); [left; constructor; assumption|].
  right. left. lia.
Qed.

Lemma clamp_min_Forall (gs : list HyperGroup) :
  Forall (fun g => 0 <= countInDeck g) gs ->
  Forall (fun g => 0 <= minDesired g /\ 0 <= countInDeck g) (map clamp_min gs).
Proof.
  induction 1 as [|g gs Hg _ IH]; simpl; constructor; [|exact IH].
  cbn. split; lia.
Qed.

Lemma hyper_ratio_range (w T : Z) :
  0 <= w -> w <= T -> (0 <= inject_Z w / inject_Z T * 100 <= 100)%Q.
Proof.
  intros Hw HT.
  destruct (Z.eq_dec T 0) as [->|HT0].
  { assert (w = 0) as -> by lia. vm_compute. split; discriminate. }
  assert (HTp : (0 < inject_Z T)%Q) by (change 0%Q with (inject_Z 0); rewrite <- Zlt_Qlt; lia).
  assert (Heq : (inject_Z w / inject_Z T * 100 == inject_Z (100 * w) / inject_Z T)%Q).
  { rewrite inject_Z_mult. field. apply inject_Z_nonzero. lia. }
  rewrite Heq. split.
  - apply Qle_shift_div_l; [exact HTp|]. rewrite Qmult_0_l.
    change 0%Q with (inject_Z 0). rewrite <- Zle_Qle. lia.
  - apply Qle_shift_div_r; [exact HTp|].
    replace (100 * inject_Z T)%Q with (inject_Z (100 * T)) by (rewrite inject_Z_mult; reflexivity).
    rewrite <- Zle_Qle. lia.
Qed.

Lemma hyper_range (deckSize handSize : Z) (groups : list HyperGroup) :
  (0 <= calculateMultivariateHyper deckSize handSize groups <= 100)%Q.
Proof.
  unfold calculateMultivariateHyper.
  destruct ((deckSize <? handSize) || (handSize <? 0)) eqn:E1.
  { vm_compute. split; discriminate. }
  apply orb_false_iff in E1 as [E1 E2]. apply Z.ltb_ge in E1, E2.
  rewrite totalInGroups_zsum.
  destruct (Z.ltb_spec deckSize (zsum countInDeck groups)).
  { vm_compute. split; discriminate. }
  destruct (Z.eqb_spec (combinations deckSize handSize) 0).
  { vm_compute. split; discriminate. }
  apply hyper_ratio_range.
  - destruct (counts_sign_cases groups) as [Hc|Hc].
    + rewrite solve_clamp, solve_spec by (apply clamp_min_Forall; exact Hc) || lia.
      pose proof (tuple_ways_nonneg (deckSize - zsum countInDeck groups)
                    (map clamp_min groups) handSize). lia.
    + rewrite solve_negative_count by exact Hc. lia.
  - destruct (counts_sign_cases groups) as [Hc|Hc].
    + rewrite solve_clamp, solve_spec by (apply clamp_min_Forall; exact Hc) || lia.
      pose proof (tuple_ways_le_total (deckSize - zsum countInDeck groups)
                    (map clamp_min groups) ltac:(lia)) as Hle.
      assert (Hz : zsum countInDeck (map clamp_min groups) = zsum countInDeck groups)
        by (rewrite zsum_map; reflexivity).
      rewrite Hz in Hle.
      replace (deckSize - zsum countInDeck groups + zsum countInDeck groups) with deckSize
        in Hle by lia.
      specialize (Hle (clamp_min_Forall groups Hc) handSize E2). lia.
    + rewrite solve_negative_count by exact Hc.
      pose proof (combinations_nonneg deckSize handSize). lia.
Qed.

(** With every group's range covering all its copies, the spec's count
    is the number of all hands, by Vandermonde's identity. *)
Lemma tuple_ways_full (other : Z) (gs : list HyperGroup) :
  0 <= other ->
  Forall (fun g => minDesired g = 0 /\ countInDeck g <= maxDesired g /\ 0 <= countInDeck g) gs ->
  forall rem, 0 <= rem ->
  tuple_ways other gs rem = combinations (other + zsum countInDeck gs) rem.
Proof.
  intros Ho. induction gs as [|g gs IH]; intros Hg rem Hrem.
  - rewrite tuple_ways_nil. simpl. rewrite Z.add_0_r.
    destruct (Z.leb_spec 0 rem), (Z.leb_spec rem other); simpl; try lia.
    + rewrite combinations_in_range by lia. reflexivity.
    + rewrite combinations_out_of_range by lia. reflexivity.
  - inversion Hg as [|? ? [Hmin [Hmax Hcnt]] Hg']; subst.
    assert (Hmins : Forall (fun g => 0 <= minDesired g) gs)
      by (eapply Forall_impl; [exact Hg'|]; intros x [? ?]; lia).
    rewrite tuple_ways_cons by exact Hmins. rewrite Hmin.
    assert (HN : 0 <= other + zsum countInDeck gs).
    { assert (0 <= zsum countInDeck gs); [|lia].
      apply zsum_nonneg. intros x Hx. rewrite Forall_forall in Hg'.
      apply Hg'. apply list_elem_of_In. exact Hx. }
    set (c := countInDeck g) in *. set (N := other + zsum countInDeck gs) in *.
    set (H := fun t => combinations c t * combinations N (rem - t)).
    transitivity (zsum H (range_from 0 (Z.to_nat (maxDesired g - 0 + 1)))).
    + apply zsum_ext_in. intros t Ht. apply In_range_from in Ht. unfold H.
      destruct (Z.leb_spec t rem).
      * rewrite IH by (assumption || lia). fold N.
        rewrite (combinations_chooseZ c t) by lia. reflexivity.
      * rewrite (combinations_out_of_range N (rem - t)) by lia. lia.
    + rewrite (zsum_range_trunc H 0 _ (S (Z.to_nat c))) by
        (lia || (intros x Hx Hle; unfold H;
                 rewrite (combinations_out_of_range c x) by lia; lia)).
      pose proof (vandermonde (Z.to_nat c) N rem HN) as Hv.
      rewrite Z2Nat.id in Hv by lia. fold H in Hv. rewrite Hv.
      f_equal. unfold N, c. change (zsum countInDeck (g :: gs))
        with (countInDeck g + zsum countInDeck gs). lia.
Qed.

Lemma hyper_unconstrained (deckSize handSize : Z)
    (groups : list HyperGroup) :
  0 <= handSize <= deckSize ->
  zsum countInDeck groups <= deckSize ->
  Forall (fun g => minDesired g <= 0 /\ countInDeck g <= maxDesired g /\ 0 <= countInDeck g)
    groups ->
  (calculateMultivariateHyper deckSize handSize groups == 100)%Q.
Proof.
  intros Hh Hsum Hg. unfold calculateMultivariateHyper.
  destruct (Z.ltb_spec deckSize handSize); [lia|].
  destruct (Z.ltb_spec handSize 0); [lia|]. cbn [orb].
  rewrite totalInGroups_zsum.
  destruct (Z.ltb_spec deckSize (zsum countInDeck groups)); [lia|].
  pose proof (combinations_pos deckSize handSize ltac:(lia)) as HT.
  destruct (Z.eqb_spec (combinations deckSize handSize) 0); [lia|].
  assert (Hc : Forall (fun g => 0 <= countInDeck g) groups)
    by (eapply Forall_impl; [exact Hg|]; intros x (? & ? & ?); lia).
  rewrite solve_clamp, solve_spec by (apply clamp_min_Forall; exact Hc) || lia.
  rewrite tuple_ways_full.
  - rewrite zsum_map. cbn [countInDeck clamp_min].
    replace (deckSize - zsum countInDeck groups + zsum (fun x => countInDeck x) groups)
      with deckSize by (change (zsum (fun x => countInDeck x) groups)
                          with (zsum countInDeck groups); lia).
    rewrite Z.mul_1_l, Z.add_0_l. field. apply inject_Z_nonzero. lia.
  - lia.
  - rewrite Forall_map. eapply Forall_impl; [exact Hg|]. intros x (? & ? & ?). cbn.
    repeat split; lia.
  - lia.
Qed.


Lemma for_take_shift (b : Z -> Z -> Z) (fuel : nat) (take total : Z) :
  (forall t acc, b t acc = acc + b t 0) ->
  for_take b fuel take total = total + for_take b fuel take 0.
Proof.
  intros Hb. revert take total; induction fuel as [|f IH]; intros take total; simpl; [lia|].
  rewrite (IH (take + 1) (b take total)), (IH (take + 1) (b take 0)).
  rewrite (Hb take total). lia.
Qed.

Lemma for_take_zsum (b : Z -> Z -> Z) (fuel : nat) (take : Z) :
  (forall t acc, b t acc = acc + b t 0) ->
  for_take b fuel take 0 = zsum (fun t => b t 0) (range_from take fuel).
Proof.
  intros Hb. rewrite (for_take_sum b (fun t => b t 0)) by (intros; apply Hb). lia.
Qed.

(** [solve] only ever adds to the running total, by an amount that does
    not depend on it. *)
Lemma solve_shift (other : Z) (gs : list HyperGroup) :
  forall rem ways total, solve other gs rem ways total = total + solve other gs rem ways 0.
Proof.
  induction gs as [|g gs IH]; intros rem ways total; cbn [solve].
  - destruct (rem <? 0); [lia|]. destruct (rem <=? other); lia.
  - destruct (rem <? 0); [lia|]. apply for_take_shift. intros t acc.
    destruct (0 <? combinations (countInDeck g) t); [apply IH|lia].
Qed.

Lemma solve_body_shift (other : Z) (g : HyperGroup) (gs : list HyperGroup) (rem ways : Z) :
  forall t acc,
  (fun take total =>
     if 0 <? combinations (countInDeck g) take
     then solve other gs (rem - take) (ways * combinations (countInDeck g) take) total
     else total) t acc =
  acc + (fun take total =>
     if 0 <? combinations (countInDeck g) take
     then solve other gs (rem - take) (ways * combinations (countInDeck g) take) total
     else total) t 0.
Proof.
  intros t acc. cbv beta. destruct (0 <? combinations (countInDeck g) t); [apply solve_shift|lia].
Qed.

Lemma solve_nonneg (other : Z) (gs : list HyperGroup) :
  forall rem ways, 0 <= ways -> 0 <= solve other gs rem ways 0.
Proof.
  induction gs as [|g gs IH]; intros rem ways Hw; cbn [solve].
  - destruct (rem <? 0); [lia|]. destruct (rem <=? other); [|lia].
    pose proof (combinations_nonneg other rem). nia.
  - destruct (rem <? 0); [lia|]. rewrite for_take_zsum by apply solve_body_shift.
    apply zsum_nonneg. intros t _. cbv beta.
    destruct (Z.ltb_spec 0 (combinations (countInDeck g) t)); [|lia].
    apply IH. nia.
Qed.

Lemma zsum_interval_le (f f' : Z -> Z) (a a' : Z) (m m' : nat) :
  (forall x, 0 <= f' x) -> (forall x, f x <= f' x) ->
  (m = 0%nat \/ (a' <= a /\ a + Z.of_nat m <= a' + Z.of_nat m')) ->
  zsum f (range_from a m) <= zsum f' (range_from a' m').
Proof.
  intros Hnn Hle [->|[Ha Hm]].
  - simpl. apply zsum_nonneg. intros x _. apply Hnn.
  - set (p := Z.to_nat (a - a')).
    set (q := (m' - p - m)%nat).
    assert (Hm' : m' = (p + (m + q))%nat) by (unfold q, p; lia).
    rewrite Hm', range_from_app, range_from_app, !zsum_app.
    replace (a' + Z.of_nat p) with a by (unfold p; lia).
    pose proof (zsum_nonneg f' (range_from a' p) ltac:(intros; apply Hnn)).
    pose proof (zsum_nonneg f' (range_from (a + Z.of_nat m) q) ltac:(intros; apply Hnn)).
    pose proof (zsum_le f f' (range_from a m) ltac:(intros; apply Hle)). lia.
Qed.

Lemma solve_widen (other : Z) (gs gs' : list HyperGroup) :
  Forall2 widens gs gs' ->
  forall rem ways, 0 <= ways -> solve other gs rem ways 0 <= solve other gs' rem ways 0.
Proof.
  induction 1 as [|g g' gs gs' [Hc [Hmin Hmax]] Hrest IH]; intros rem ways Hw;
    [reflexivity|].
  cbn [solve]. destruct (rem <? 0); [lia|].
  rewrite !for_take_zsum by apply solve_body_shift.
  apply zsum_interval_le.
  - intros x. cbv beta. destruct (Z.ltb_spec 0 (combinations (countInDeck g') x)); [|lia].
    apply solve_nonneg. nia.
  - intros x. cbv beta. rewrite Hc.
    destruct (Z.ltb_spec 0 (combinations (countInDeck g') x)); [|lia].
    apply IH. nia.
  - rewrite Hc. lia.
Qed.

Lemma hyper_widen (deckSize handSize : Z)
    (groups groups' : list HyperGroup) :
  Forall2 widens groups groups' ->
  (calculateMultivariateHyper deckSize handSize groups <=
   calculateMultivariateHyper deckSize handSize groups')%Q.
Proof.
  intros Hw. unfold calculateMultivariateHyper.
  assert (Ht : totalInGroups groups = totalInGroups groups').
  { rewrite !totalInGroups_zsum. clear -Hw.
    induction Hw as [|g g' gs gs' [Hc _] _ IH]; [reflexivity|].
    change (countInDeck g + zsum countInDeck gs = countInDeck g' + zsum countInDeck gs').
    lia. }
  rewrite <- Ht.
  destruct ((deckSize <? handSize) || (handSize <? 0)); [apply Qle_refl|].
  destruct (deckSize <? totalInGroups groups); [apply Qle_refl|].
  destruct (Z.eqb_spec (combinations deckSize handSize) 0); [apply Qle_refl|].
  pose proof (combinations_nonneg deckSize handSize).
  assert (HTp : (0 < inject_Z (combinations deckSize handSize))%Q)
    by (change 0%Q with (inject_Z 0); rewrite <- Zlt_Qlt; lia).
  apply Qmult_le_compat_r; [|discriminate].
  apply Qmult_le_compat_r; [|apply Qlt_le_weak, Qinv_lt_0_compat, HTp].
  rewrite <- Zle_Qle, (solve_shift _ groups), (solve_shift _ groups').
  pose proof (solve_widen (deckSize - totalInGroups groups) groups groups' Hw handSize 1
                ltac:(lia)). lia.
Qed.


Lemma toFixed2_mono (x y : Q) : (0 <= x)%Q -> (x <= y)%Q -> (toFixed2 x <= toFixed2 y)%Q.
Proof.
  intros Hx Hxy. unfold toFixed2.
  assert (Hy : (0 <= y)%Q) by (eapply Qle_trans; eassumption).
  apply Qle_bool_iff in Hx, Hy. rewrite Hx, Hy.
  apply Qmult_le_compat_r; [|vm_compute; discriminate].
  rewrite <- Zle_Qle. apply Qfloor_resp_le.
  apply Qplus_le_compat; [|apply Qle_refl].
  apply Qmult_le_compat_r; [exact Hxy|vm_compute; discriminate].
Qed.

Lemma toFixed2_range (x : Q) : (0 <= x <= 100)%Q -> (0 <= toFixed2 x <= 100)%Q.
Proof.
  intros [H0 H100].
  pose proof (toFixed2_mono 0 x (Qle_refl 0) H0) as Hl.
  pose proof (toFixed2_mono x 100 H0 H100) as Hu.
  assert (E0 : (toFixed2 0 == 0)%Q) by reflexivity.
  assert (E100 : (toFixed2 100 == 100)%Q) by reflexivity.
  rewrite E0 in Hl. rewrite E100 in Hu. split; assumption.
Qed.

Lemma prob_rows_drawCount (deckSize targetCount handSize : Z) (fuel : nat) (i : Z) :
  map drawCount (prob_rows deckSize targetCount handSize fuel i) = range_from i fuel.
Proof.
  revert i; induction fuel as [|f IH]; intros i; simpl; [reflexivity|]. rewrite IH. reflexivity.
Qed.

Lemma prob_rows_bounds (deckSize targetCount handSize : Z) (fuel : nat) (i : Z) :
  i + Z.of_nat fuel <= handSize + 1 ->
  Forall (fun r => (0 <= exact r <= cumulativeAtLeast r /\ cumulativeAtLeast r <= 100)%Q)
    (prob_rows deckSize targetCount handSize fuel i).
Proof.
  revert i; induction fuel as [|f IH]; intros i Hi; simpl; constructor.
  - cbn [exact cumulativeAtLeast].
    pose proof (hyper_range deckSize handSize [tmp_group targetCount i i])
      as [He0 He1].
    pose proof (hyper_range deckSize handSize
                  [tmp_group targetCount i handSize]) as Ha.
    pose proof (toFixed2_range _ Ha) as [Ha0 Ha1].
    split; [split|exact Ha1].
    + apply (toFixed2_range _ (conj He0 He1)).
    + apply toFixed2_mono; [exact He0|]. apply hyper_widen.
      constructor; [unfold widens; simpl; lia|constructor].
  - apply IH. lia.
Qed.

Lemma prob_rows_atLeast_step (deckSize targetCount handSize : Z) (fuel : nat) :
  forall i k r1 r2,
  prob_rows deckSize targetCount handSize fuel i !! k = Some r1 ->
  prob_rows deckSize targetCount handSize fuel i !! S k = Some r2 ->
  (cumulativeAtLeast r2 <= cumulativeAtLeast r1)%Q.
Proof.
  induction fuel as [|f IH]; intros i k r1 r2 H1 H2; [discriminate H1|].
  destruct k as [|k].
  - destruct f as [|f]; [discriminate H2|].
    cbn in H1, H2. injection H1 as <-. injection H2 as <-. cbn [cumulativeAtLeast].
    apply toFixed2_mono.
    + apply hyper_range.
    + apply hyper_widen.
      constructor; [unfold widens; simpl; lia|constructor].
  - apply (IH (i + 1) k); assumption.
Qed.

(** [solve] reads a group's maximum only through
    [Math.min(remainingHand, countInDeck, maxDesired)]: any maximum at
    least the hand left gives the same count. *)
Lemma solve_max_above (other c mn mx1 mx2 : Z) (rest : list HyperGroup) (rem ways total : Z) :
  rem <= mx1 -> rem <= mx2 ->
  solve other (tmp_group c mn mx1 :: rest) rem ways total =
  solve other (tmp_group c mn mx2 :: rest) rem ways total.
Proof.
  intros H1 H2. cbn [solve tmp_group countInDeck minDesired maxDesired].
  destruct (rem <? 0); [reflexivity|].
  rewrite (Z.min_l (Z.min rem c) mx1), (Z.min_l (Z.min rem c) mx2) by lia.
  reflexivity.
Qed.

(** Shape and range of the draw table: one row per draw count
    [0 .. min(targetCount, handSize)] in order, and in every row
    [0 <= exact <= cumulativeAtLeast <= 100]. *)
Theorem calculateProbabilities_rows (deckSize targetCount handSize : Z) :
  map drawCount (calculateProbabilities deckSize targetCount handSize) =
    range_from 0 (Z.to_nat (Z.min targetCount handSize + 1)) /\
  Forall (fun r => (0 <= exact r <= cumulativeAtLeast r /\ cumulativeAtLeast r <= 100)%Q)
    (calculateProbabilities deckSize targetCount handSize).
Proof.
  unfold calculateProbabilities. split; [apply prob_rows_drawCount|].
  destruct (Z.le_gt_cases (Z.min targetCount handSize + 1) 0).
  - replace (Z.to_nat (Z.min targetCount handSize + 1)) with 0%nat by lia. constructor.
  - apply prob_rows_bounds. lia.
Qed.

(** For every deck, copy count and hand size, the at-least column of
    the draw table never increases from one row to the next. *)
Theorem calculateProbabilities_atLeast_nonincreasing (deckSize targetCount handSize : Z)
    (k : nat) (r1 r2 : ProbRow) :
  calculateProbabilities deckSize targetCount handSize !! k = Some r1 ->
  calculateProbabilities deckSize targetCount handSize !! S k = Some r2 ->
  (cumulativeAtLeast r2 <= cumulativeAtLeast r1)%Q.
Proof. apply prob_rows_atLeast_step. Qed.

Lemma calculateProbabilities_atLeast_nonincreasing_witness :
  exists r1 r2,
    calculateProbabilities 60 9 6 !! 2%nat = Some r1 /\
    calculateProbabilities 60 9 6 !! 3%nat = Some r2 /\
    (cumulativeAtLeast r2 <= cumulativeAtLeast r1)%Q.
Proof.
  eexists _, _.
  assert (H1 : calculateProbabilities 60 9 6 !! 2%nat = Some _) by (vm_compute; reflexivity).
  assert (H2 : calculateProbabilities 60 9 6 !! 3%nat = Some _) by (vm_compute; reflexivity).
  split; [exact H1|]. split; [exact H2|].
  exact (calculateProbabilities_atLeast_nonincreasing 60 9 6 2 _ _ H1 H2).
Defined.

(** When the copies fit in the deck and the hand is a valid draw, the
    first row of the draw table is for 0 copies and its at-least
    probability is 100. *)
Theorem calculateProbabilities_first_row (deckSize targetCount handSize : Z) :
  0 <= targetCount <= deckSize -> 0 <= handSize <= deckSize ->
  exists r, calculateProbabilities deckSize targetCount handSize !! 0%nat = Some r /\
            drawCount r = 0 /\ (cumulativeAtLeast r == 100)%Q.
Proof.
  intros Ht Hh. unfold calculateProbabilities.
  destruct (Z.to_nat (Z.min targetCount handSize + 1)) as [|f] eqn:E; [lia|].
  eexists. split; [reflexivity|]. cbn [drawCount cumulativeAtLeast]. split; [reflexivity|].
  assert (Hc : (calculateMultivariateHyper deckSize handSize [tmp_group targetCount 0 handSize]
                == 100)%Q).
  { transitivity (calculateMultivariateHyper deckSize handSize
                    [tmp_group targetCount 0 (Z.max targetCount handSize)]).
    - unfold calculateMultivariateHyper.
      change (totalInGroups [tmp_group targetCount 0 handSize])
        with (totalInGroups [tmp_group targetCount 0 (Z.max targetCount handSize)]).
      rewrite (solve_max_above _ targetCount 0 handSize (Z.max targetCount handSize))
        by lia.
      reflexivity.
    - apply hyper_unconstrained; [lia| |].
      + cbn. lia.
      + constructor; [cbn; lia|constructor]. }
  assert (Hl : (toFixed2 100 <= toFixed2 (calculateMultivariateHyper deckSize handSize
                                            [tmp_group targetCount 0 handSize]))%Q).
  { apply toFixed2_mono; [discriminate|]. rewrite Hc. apply Qle_refl. }
  assert (Hu : (toFixed2 (calculateMultivariateHyper deckSize handSize
                            [tmp_group targetCount 0 handSize]) <= toFixed2 100)%Q).
  { apply toFixed2_mono; [apply hyper_range|].
    rewrite Hc. apply Qle_refl. }
  assert (E100 : (toFixed2 100 == 100)%Q) by reflexivity.
  rewrite E100 in Hl, Hu. apply Qle_antisym; assumption.
Qed.

Lemma calculateProbabilities_first_row_witness :
  (0 <= 9 <= 60 /\ 0 <= 6 <= 60) /\
  exists r, calculateProbabilities 60 9 6 !! 0%nat = Some r /\
            drawCount r = 0 /\ (cumulativeAtLeast r == 100)%Q.
Proof.
  split; [lia|]. apply (calculateProbabilities_first_row 60 9 6); lia.
Defined.

(* ------------------------------------------------------------------ *)
(** ** Properties of [calculateMultivariateHyper] and its callers *)

(** [calculateMultivariateHyper] is a percentage for every input: it is
    never negative and never exceeds 100, whatever the deck size, hand
    size or group bounds (negative minimums, empty or inverted
    [[min, max]] ranges and negative counts included). *)
Theorem calculateMultivariateHyper_range (deckSize handSize : Z) (groups : list HyperGroup) :
  (0 <= calculateMultivariateHyper deckSize handSize groups <= 100)%Q.
Proof. apply hyper_range. Qed.

(** A check whose every group accepts any number of its copies
    ([minDesired <= 0] and [maxDesired >= countInDeck]) succeeds on
    every hand: with the hand within the deck and the groups fitting in
    it, the result is exactly 100. *)
Theorem calculateMultivariateHyper_unconstrained (deckSize handSize : Z)
    (groups : list HyperGroup) :
  0 <= handSize <= deckSize ->
  zsum countInDeck groups <= deckSize ->
  Forall (fun g => minDesired g <= 0 /\ countInDeck g <= maxDesired g /\ 0 <= countInDeck g)
    groups ->
  (calculateMultivariateHyper deckSize handSize groups == 100)%Q.
Proof. apply hyper_unconstrained. Qed.

Lemma calculateMultivariateHyper_unconstrained_witness :
  (0 <= 5 <= 40 /\ zsum countInDeck [tmp_group 3 0 3; tmp_group 9 (-1) 12] <= 40 /\
   Forall (fun g => minDesired g <= 0 /\ countInDeck g <= maxDesired g /\ 0 <= countInDeck g)
     [tmp_group 3 0 3; tmp_group 9 (-1) 12]) /\
  (calculateMultivariateHyper 40 5 [tmp_group 3 0 3; tmp_group 9 (-1) 12] == 100)%Q.
Proof.
  assert (H1 : 0 <= 5 <= 40) by lia.
  assert (H2 : zsum countInDeck [tmp_group 3 0 3; tmp_group 9 (-1) 12] <= 40)
    by (vm_compute; discriminate).
  assert (H3 : Forall (fun g => minDesired g <= 0 /\ countInDeck g <= maxDesired g /\
                                0 <= countInDeck g)
                 [tmp_group 3 0 3; tmp_group 9 (-1) 12])
    by (repeat constructor; simpl; lia).
  split; [split; [exact H1|split; [exact H2|exact H3]]|].
  apply (calculateMultivariateHyper_unconstrained 40 5 _ H1 H2 H3).
Defined.

(** Widening the [[min, max]] bounds of the groups never lowers the
    result of [calculateMultivariateHyper]: the successful hands of the
    narrower check are among those of the wider one. *)
Theorem calculateMultivariateHyper_widen (deckSize handSize : Z)
    (groups groups' : list HyperGroup) :
  Forall2 widens groups groups' ->
  (calculateMultivariateHyper deckSize handSize groups <=
   calculateMultivariateHyper deckSize handSize groups')%Q.
Proof. apply hyper_widen. Qed.

Lemma calculateMultivariateHyper_widen_witness :
  Forall2 widens [tmp_group 3 1 1] [tmp_group 3 0 3] /\
  (calculateMultivariateHyper 40 5 [tmp_group 3 1 1] <=
   calculateMultivariateHyper 40 5 [tmp_group 3 0 3])%Q.
Proof.
  assert (H : Forall2 widens [tmp_group 3 1 1] [tmp_group 3 0 3]).
  { constructor; [unfold widens; simpl; lia|constructor]. }
  split; [exact H|]. apply (calculateMultivariateHyper_widen 40 5 _ _ H).
Defined.

Lemma map_range_shift {B} (f : Z -> B) (a : Z) (m : nat) :
  map f (range_from (a + 1) m) = map (fun x => f (x + 1)) (range_from a m).
Proof.
  revert a; induction m as [|m IH]; intros a; [reflexivity|].
  cbn [range_from map]. rewrite IH. reflexivity.
Qed.

Lemma rev_map_range {B} (g : Z -> B) (n : nat) :
  rev (map g (range_from 0 n)) = map (fun k => g (Z.of_nat n - 1 - k)) (range_from 0 n).
Proof.
  induction n as [|n IH]; [reflexivity|].
  rewrite range_from_S_end at 1. rewrite map_app, rev_app_distr, IH.
  cbn [range_from map rev app]. rewrite map_range_shift.
  f_equal; [f_equal; lia|]. apply map_ext. intros k. f_equal. lia.
Qed.

Lemma swiss_loop_records (P R : Z) (Tc : Q) (n : nat) (w : Z) :
  map (fun s => (wins s, losses s)) (swiss_loop P R Tc n w) =
  map (fun k => (w - k, R - (w - k))) (range_from 0 n).
Proof.
  revert w; induction n as [|n IH]; intros w; [reflexivity|].
  cbn [swiss_loop map range_from wins losses]. rewrite IH, map_range_shift.
  f_equal; [f_equal; lia|]. apply map_ext. intros k. f_equal; lia.
Qed.

Lemma swiss_loop_counts (P R : Z) (Tc : Q) (n : nat) (w : Z) :
  map count (swiss_loop P R Tc n w) =
  map (fun k => (inject_Z (combinations R (w - k)) / Tc * inject_Z P)%Q) (range_from 0 n).
Proof.
  revert w; induction n as [|n IH]; intros w; [reflexivity|].
  cbn [swiss_loop map range_from count]. rewrite IH, map_range_shift.
  rewrite Z.sub_0_r. f_equal. apply map_ext. intros k. do 4 f_equal. lia.
Qed.

Lemma swiss_loop_bounds (P R : Z) (Tc : Q) (n : nat) (w : Z) :
  Forall (fun s => (inject_Z (lowerBound s) <= count s <= inject_Z (upperBound s))%Q /\
                   lowerBound s <= upperBound s <= lowerBound s + 1)
    (swiss_loop P R Tc n w).
Proof.
  revert w; induction n as [|n IH]; intros w; constructor; [|apply IH].
  cbn [lowerBound upperBound count].
  set (x := (inject_Z (combinations R w) / Tc * inject_Z P)%Q).
  pose proof (Qfloor_le x). pose proof (Qle_ceiling x).
  pose proof (Qlt_floor x) as Hf. pose proof (Qceiling_lt x) as Hc.
  assert (Hcf : Qceiling x <= Qfloor x + 1).
  { assert (Hlt : (inject_Z (Qceiling x - 1) < inject_Z (Qfloor x + 1))%Q)
      by (eapply Qlt_trans; eassumption).
    rewrite <- Zlt_Qlt in Hlt. lia. }
  split; [split|].
  - assumption.
  - eapply Qle_trans; [eassumption|]. rewrite <- Zle_Qle. lia.
  - lia.
Qed.

Lemma swiss_records (numPlayers numRounds : Z) :
  map (fun s => (wins s, losses s)) (calculateSwissStandings numPlayers numRounds) =
  map (fun k => (numRounds - k, k)) (range_from 0 (Z.to_nat (numRounds + 1))).
Proof.
  unfold calculateSwissStandings. rewrite swiss_loop_records.
  apply map_ext. intros k. f_equal. lia.
Qed.

Lemma swiss_counts_palindrome (numPlayers numRounds : Z) :
  map count (calculateSwissStandings numPlayers numRounds) =
  rev (map count (calculateSwissStandings numPlayers numRounds)).
Proof.
  unfold calculateSwissStandings. rewrite swiss_loop_counts, rev_map_range.
  apply map_ext_in. intros k Hk. apply In_range_from in Hk.
  destruct (Z.le_gt_cases 0 numRounds); [|lia].
  rewrite Z2Nat.id by lia.
  replace (numRounds - (numRounds + 1 - 1 - k)) with k by lia.
  rewrite (combinations_sym numRounds k). reflexivity.
Qed.

(* ------------------------------------------------------------------ *)
(** ** Properties of [calculateSwissStandings] *)

(** The standings list one entry per record, from [numRounds] wins down
    to [0]: entry [k] has [numRounds - k] wins and [k] losses, for
    [k = 0 .. numRounds] (no entry at all when [numRounds < 0]). *)
Theorem calculateSwissStandings_records (numPlayers numRounds : Z) :
  map (fun s => (wins s, losses s)) (calculateSwissStandings numPlayers numRounds) =
  map (fun k => (numRounds - k, k)) (range_from 0 (Z.to_nat (numRounds + 1))).
Proof. apply swiss_records. Qed.

(** Every entry's bounds bracket its expected count and differ by at
    most one: [lowerBound <= count <= upperBound <= lowerBound + 1]. *)
Theorem calculateSwissStandings_bounds (numPlayers numRounds : Z) :
  Forall (fun s => (inject_Z (lowerBound s) <= count s <= inject_Z (upperBound s))%Q /\
                   lowerBound s <= upperBound s <= lowerBound s + 1)
    (calculateSwissStandings numPlayers numRounds).
Proof. apply swiss_loop_bounds. Qed.

(** The expected counts read the same from either end: the count at
    [w] wins equals the count at [w] losses. *)
Theorem calculateSwissStandings_symmetric (numPlayers numRounds : Z) :
  map count (calculateSwissStandings numPlayers numRounds) =
  rev (map count (calculateSwissStandings numPlayers numRounds)).
Proof. apply swiss_counts_palindrome. Qed.

(** Each bucket's chance is a probability: [1], [0], or the share
    [(targetRank - prevCumulative) / playersAtThisRecord] taken only
    when [prevCumulative < targetRank < cumulativePlayers]. *)
Lemma bucket_chance_unit (T prev c : Q) :
  (0 <= bucket_chance T prev (prev + c) c <= 1)%Q.
Proof.
  unfold bucket_chance.
  destruct (Qle_bool (prev + c) T) eqn:E1; [split; discriminate|].
  destruct (Qlt_bool prev T) eqn:E2; [|split; discriminate].
  apply Qlt_bool_iff in E2.
  assert (E1' : (T < prev + c)%Q).
  { apply Qnot_le_lt. intros H. apply Qle_bool_iff in H. congruence. }
  assert (Hc : (0 < c)%Q) by lra.
  split.
  - apply Qle_shift_div_l; [exact Hc|]. lra.
  - apply Qle_shift_div_r; [exact Hc|]. lra.
Qed.

Lemma chance_loop_unit (T : Q) (l : list SwissStanding) (c : Q) (m : gmap Z Q) :
  map_Forall (fun _ v => (0 <= v <= 1)%Q) m ->
  map_Forall (fun _ v => (0 <= v <= 1)%Q) (chance_loop T l c m).
Proof.
  revert c m; induction l as [|s l IH]; intros c m Hm; simpl; [exact Hm|].
  apply IH. apply map_Forall_insert_2; [apply bucket_chance_unit|exact Hm].
Qed.

Lemma qsum_div_inject (f : Z -> Z) (D : Q) (l : list Z) :
  (qsum (fun k => inject_Z (f k) / D) l == inject_Z (zsum f l) / D)%Q.
Proof.
  induction l as [|x l IH]; [unfold qsum, zsum; simpl; unfold Qdiv; ring|].
  change (qsum (fun k => (inject_Z (f k) / D)%Q) (x :: l))
    with (inject_Z (f x) / D + qsum (fun k => (inject_Z (f k) / D)%Q) l)%Q.
  change (zsum f (x :: l)) with (f x + zsum f l).
  rewrite IH, inject_Z_plus. unfold Qdiv. ring.
Qed.

Lemma topx_loop_bounds (m : gmap Z Q) (cw rr : Z) (D : Q) (fuel : nat) :
  map_Forall (fun _ v => (0 <= v <= 1)%Q) m -> (0 < D)%Q ->
  forall i acc,
  (acc <= topx_loop m cw rr D fuel i acc <=
   acc + qsum (fun k => inject_Z (combinations rr k) / D) (range_from i fuel))%Q.
Proof.
  intros Hm HD. induction fuel as [|f IH]; intros i acc; simpl.
  - split; lra.
  - change (qsum (fun k => (inject_Z (combinations rr k) / D)%Q) (i :: range_from (i + 1) f))
      with (inject_Z (combinations rr i) / D +
            qsum (fun k => (inject_Z (combinations rr k) / D)%Q) (range_from (i + 1) f))%Q.
    set (p := (inject_Z (combinations rr i) / D)%Q).
    set (ch := match m !! (cw + i) with Some c => c | None => 0%Q end).
    assert (Hp : (0 <= p)%Q).
    { apply Qle_shift_div_l; [exact HD|]. rewrite Qmult_0_l.
      change 0%Q with (inject_Z 0). rewrite <- Zle_Qle. apply combinations_nonneg. }
    assert (Hch : (0 <= ch <= 1)%Q).
    { unfold ch. destruct (m !! (cw + i)) eqn:E; [|split; discriminate].
      exact (Hm _ _ E). }
    assert (H0 : (0 <= p * ch)%Q) by (apply Qmult_le_0_compat; [exact Hp|apply Hch]).
    assert (H1 : (p * ch <= p)%Q).
    { rewrite <- (Qmult_1_r p) at 2. rewrite !(Qmult_comm p).
      apply Qmult_le_compat_r; [apply Hch|exact Hp]. }
    destruct (IH (i + 1) (acc + p * ch)%Q). split; lra.
Qed.

Lemma topx_range (totalPlayers totalRounds targetRank currentWins currentLosses : Z) :
  (0 <= calculateTopXProbability totalPlayers totalRounds targetRank currentWins currentLosses
     <= 100)%Q.
Proof.
  unfold calculateTopXProbability.
  destruct (Z.ltb_spec (totalRounds - (currentWins + currentLosses)) 0);
    [split; discriminate|].
  destruct (totalPlayers <=? targetRank); [split; discriminate|].
  set (rr := totalRounds - (currentWins + currentLosses)) in *.
  cbv zeta. apply toFixed2_range.
  assert (HD : (Qpower 2 rr == inject_Z (2 ^ rr))%Q) by (apply Qpower_2_pos; lia).
  assert (HDp : (0 < Qpower 2 rr)%Q).
  { rewrite HD. change 0%Q with (inject_Z 0). rewrite <- Zlt_Qlt.
    apply Z.pow_pos_nonneg; lia. }
  pose proof (topx_loop_bounds (makeItChanceMap totalPlayers totalRounds targetRank)
                currentWins rr (Qpower 2 rr) (Z.to_nat (rr + 1))
                (chance_loop_unit _ _ _ _ (map_Forall_empty _)) HDp 0 0%Q) as [Hl Hu].
  rewrite qsum_div_inject in Hu.
  replace (Z.to_nat (rr + 1)) with (Z.to_nat rr + 1)%nat in Hl, Hu |- * by lia.
  rewrite zsum_combinations_row in Hu by lia.
  rewrite <- HD in Hu.
  assert (Hone : (Qpower 2 rr / Qpower 2 rr == 1)%Q)
    by (field; intros E; rewrite E in HDp; discriminate).
  rewrite Hone in Hu. split; lra.
Qed.

(* ------------------------------------------------------------------ *)
(** ** Properties of [calculateTopXProbability] *)

(** [calculateTopXProbability] is a percentage for every input: between
    0 and 100 whatever the player count, rounds, target rank and
    current record. *)
Theorem calculateTopXProbability_range
    (totalPlayers totalRounds targetRank currentWins currentLosses : Z) :
  (0 <= calculateTopXProbability totalPlayers totalRounds targetRank currentWins currentLosses
     <= 100)%Q.
Proof. apply topx_range. Qed.

(* ------------------------------------------------------------------ *)
(** ** The deck file, the card cache and the deck builder *)

Section YdkProperties.
Import Types YgoService DeckBuilder.

Lemma list_ascii_of_string_append (s t : string) :
  list_ascii_of_string (String.append s t) = list_ascii_of_string s ++ list_ascii_of_string t.
Proof. induction s as [|c s IH]; simpl; [reflexivity|]. rewrite IH. reflexivity. Qed.

Lemma split_on_no_sep (sep : ascii) (l : list ascii) :
  Forall (fun c => Ascii.eqb c sep = false) l -> split_on sep l = [l].
Proof.
  induction 1 as [|c l Hc _ IH]; simpl; [reflexivity|]. rewrite Hc, IH. reflexivity.
Qed.

Lemma split_on_app (sep : ascii) (l1 l2 : list ascii) :
  Forall (fun c => Ascii.eqb c sep = false) l1 ->
  split_on sep (l1 ++ sep :: l2) = l1 :: split_on sep l2.
Proof.
  induction 1 as [|c l Hc _ IH]; simpl.
  - rewrite Ascii.eqb_refl. reflexivity.
  - rewrite Hc, IH. reflexivity.
Qed.

(** Splitting a join on a separator that no piece contains gives the
    pieces back. *)
Lemma str_split_join (sep : ascii) (xs : list string) :
  xs <> [] ->
  Forall (fun x => Forall (fun c => Ascii.eqb c sep = false) (list_ascii_of_string x)) xs ->
  str_split sep (join (String sep EmptyString) xs) = xs.
Proof.
  intros Hne Hxs. unfold str_split.
  induction Hxs as [|x xs Hx Hxs IH]; [congruence|].
  destruct xs as [|y xs].
  - simpl. rewrite split_on_no_sep by exact Hx. simpl.
    rewrite string_of_list_ascii_of_string. reflexivity.
  - change (join (String sep EmptyString) (x :: y :: xs))
      with (String.append x (String.append (String sep EmptyString)
                               (join (String sep EmptyString) (y :: xs)))).
    rewrite !list_ascii_of_string_append. simpl.
    rewrite split_on_app by exact Hx. simpl.
    rewrite string_of_list_ascii_of_string. f_equal. apply IH. discriminate.
Qed.

Lemma drop_spaces_id (l : list ascii) :
  Forall (fun c => is_js_space c = false) l -> drop_spaces l = l.
Proof. intros H. destruct H as [|c l Hc _]; simpl; [reflexivity|]. rewrite Hc. reflexivity. Qed.

Lemma trim_id (s : string) :
  Forall (fun c => is_js_space c = false) (list_ascii_of_string s) -> trim s = s.
Proof.
  intros H. unfold trim. rewrite (drop_spaces_id (list_ascii_of_string s) H).
  rewrite (drop_spaces_id (rev (list_ascii_of_string s))) by (apply Forall_rev; exact H).
  rewrite rev_involutive. apply string_of_list_ascii_of_string.
Qed.

(** The characters of a decimal numeral. *)

Lemma numeral_char_props (c : ascii) :
  numeral_char c = true ->
  is_js_space c = false /\ Ascii.eqb c newline = false /\
  c <> "#"%char /\ c <> "!"%char.
Proof.
  unfold numeral_char, is_digit, is_js_space, newline. intros H.
  apply orb_true_iff in H as [H|H].
  - apply andb_true_iff in H as [H1 H2]. apply Nat.leb_le in H1, H2.
    assert (Hne : forall k, (k < 48 \/ 57 < k)%nat -> (nat_of_ascii c =? k)%nat = false)
      by (intros k Hk; apply Nat.eqb_neq; lia).
    rewrite !Hne by lia. split; [reflexivity|]. split.
    + apply Ascii.eqb_neq. intros ->. rewrite nat_ascii_embedding in H1 by lia. lia.
    + split; intros ->; vm_compute in H1; lia.
  - apply Ascii.eqb_eq in H. subst c. repeat split; discriminate.
Qed.

Lemma digit_char_digit (d : Z) : 0 <= d < 10 ->
  is_digit (digit_char d) = true /\ Z.of_nat (nat_of_ascii (digit_char d)) - 48 = d.
Proof.
  intros Hd. unfold digit_char, is_digit.
  rewrite nat_ascii_embedding by lia. split.
  - apply andb_true_iff. split; apply Nat.leb_le; lia.
  - lia.
Qed.

Lemma digits_rev_digits (f : nat) (m : Z) : 0 <= m ->
  Forall (fun c => is_digit c = true) (digits_rev f m).
Proof.
  revert m; induction f as [|f IH]; intros m Hm; simpl; constructor.
  - apply digit_char_digit. apply Z.mod_pos_bound. lia.
  - destruct (m <? 10); [constructor|]. apply IH. apply Z.div_pos; lia.
Qed.

Lemma digits_value_snoc (l : list ascii) (c : ascii) :
  digits_value (l ++ [c]) = digits_value l * 10 + (Z.of_nat (nat_of_ascii c) - 48).
Proof. unfold digits_value. rewrite fold_left_app. reflexivity. Qed.

Lemma digits_rev_value (f : nat) (m : Z) :
  0 <= m < 2 ^ Z.of_nat f -> (1 <= f)%nat ->
  digits_value (rev (digits_rev f m)) = m.
Proof.
  revert m; induction f as [|f IH]; intros m Hm Hf; [lia|].
  cbn [digits_rev rev]. rewrite digits_value_snoc.
  destruct (digit_char_digit (m mod 10) ltac:(apply Z.mod_pos_bound; lia)) as [_ ->].
  destruct (Z.ltb_spec m 10).
  - simpl. rewrite Z.mod_small by lia. reflexivity.
  - assert (Hf' : (1 <= f)%nat).
    { destruct f; [|lia]. simpl in Hm. lia. }
    rewrite IH; [pose proof (Z.div_mod m 10); lia| |exact Hf'].
    split; [apply Z.div_pos; lia|].
    rewrite Nat2Z.inj_succ, Z.pow_succ_r in Hm by lia.
    apply Z.div_lt_upper_bound; lia.
Qed.

Lemma digits_rev_nonempty (f : nat) (m : Z) : (1 <= f)%nat -> digits_rev f m <> [].
Proof. destruct f; [lia|]. discriminate. Qed.

Lemma numeral_digits (n : Z) :
  let f := Z.to_nat (Z.log2 (Z.abs n) + 1) in
  (1 <= f)%nat /\ 0 <= Z.abs n < 2 ^ Z.of_nat f.
Proof.
  cbv zeta. pose proof (Z.log2_nonneg (Z.abs n)). split; [lia|].
  rewrite Z2Nat.id by lia. split; [lia|].
  destruct (Z.eq_dec (Z.abs n) 0) as [->|Hn]; [simpl; lia|].
  rewrite Z.add_1_r. apply Z.log2_spec. lia.
Qed.

Lemma number_to_string_chars (n : Z) :
  exists c l, list_ascii_of_string (number_to_string n) = c :: l /\
              Forall (fun c => numeral_char c = true) (c :: l).
Proof.
  unfold number_to_string.
  destruct (numeral_digits n) as [Hf _].
  set (f := Z.to_nat (Z.log2 (Z.abs n) + 1)) in *.
  pose proof (digits_rev_digits f (Z.abs n) ltac:(lia)) as Hd.
  assert (Hnum : Forall (fun c => numeral_char c = true) (rev (digits_rev f (Z.abs n)))).
  { apply Forall_rev. eapply Forall_impl; [exact Hd|].
    intros c Hc. unfold numeral_char. rewrite Hc. reflexivity. }
  destruct (n <? 0).
  - exists "-"%char, (rev (digits_rev f (Z.abs n))). cbn [list_ascii_of_string].
    rewrite list_ascii_of_string_of_list_ascii. split; [reflexivity|].
    constructor; [reflexivity|exact Hnum].
  - rewrite list_ascii_of_string_of_list_ascii.
    destruct (rev (digits_rev f (Z.abs n))) as [|c l] eqn:E.
    + exfalso. apply (digits_rev_nonempty f (Z.abs n) Hf).
      apply (f_equal (@rev ascii)) in E. rewrite rev_involutive in E. exact E.
    + exists c, l. split; [reflexivity|exact Hnum].
Qed.

Lemma take_digits_all (l : list ascii) :
  Forall (fun c => is_digit c = true) l -> take_digits l = l.
Proof. induction 1 as [|c l Hc _ IH]; simpl; [reflexivity|]. rewrite Hc, IH. reflexivity. Qed.

(** [parseInt(String(n), 10) === n]. *)
Lemma parseInt10_number_to_string (n : Z) : parseInt10 (number_to_string n) = Some n.
Proof.
  destruct (number_to_string_chars n) as (c0 & l0 & Hl & Hall).
  unfold parseInt10. rewrite drop_spaces_id
    by (rewrite Hl; eapply Forall_impl; [exact Hall|]; intros c Hc;
        apply numeral_char_props; exact Hc).
  unfold number_to_string in *.
  destruct (numeral_digits n) as [Hf Hb].
  set (f := Z.to_nat (Z.log2 (Z.abs n) + 1)) in *.
  pose proof (digits_rev_digits f (Z.abs n) ltac:(lia)) as Hd.
  pose proof (digits_rev_value f (Z.abs n) Hb Hf) as Hv.
  destruct (Z.ltb_spec n 0).
  - cbn [list_ascii_of_string]. rewrite list_ascii_of_string_of_list_ascii.
    rewrite Ascii.eqb_refl. rewrite take_digits_all by (apply Forall_rev; exact Hd).
    destruct (rev (digits_rev f (Z.abs n))) as [|c l] eqn:E.
    + exfalso. apply (digits_rev_nonempty f (Z.abs n) Hf).
      apply (f_equal (@rev ascii)) in E. rewrite rev_involutive in E. exact E.
    + rewrite Hv. f_equal. lia.
  - rewrite list_ascii_of_string_of_list_ascii in *.
    pose proof (Forall_rev Hd) as Hd'.
    destruct (rev (digits_rev f (Z.abs n))) as [|c l] eqn:E; [discriminate Hl|].
    assert (Hc : is_digit c = true) by (inversion Hd'; assumption).
    assert (Hm : Ascii.eqb c "-"%char = false).
    { apply Ascii.eqb_neq. intros ->. discriminate Hc. }
    assert (Hp : Ascii.eqb c "+"%char = false).
    { apply Ascii.eqb_neq. intros ->. discriminate Hc. }
    cbn -[Ascii.eqb take_digits digits_value]. rewrite Hm, Hp.
    cbn -[take_digits digits_value]. rewrite take_digits_all by exact Hd'.
    rewrite Hv. f_equal. lia.
Qed.

Lemma number_line_props (n : Z) :
  let s := number_to_string n in
  trim s = s /\ String.eqb s EmptyString = false /\ String.prefix "#main" s = false /\
  String.prefix "#extra" s = false /\ String.prefix "!side" s = false /\
  Forall (fun c => Ascii.eqb c newline = false) (list_ascii_of_string s).
Proof.
  cbv zeta. destruct (number_to_string_chars n) as (c & l & Hl & Hall).
  assert (Hs : number_to_string n = String c (string_of_list_ascii l)).
  { rewrite <- (string_of_list_ascii_of_string (number_to_string n)), Hl. reflexivity. }
  inversion Hall as [|? ? Hc _]; subst.
  destruct (numeral_char_props c Hc) as (_ & _ & Hh & Hb).
  split; [apply trim_id; rewrite Hl; eapply Forall_impl; [exact Hall|];
          intros x Hx; apply numeral_char_props; exact Hx|].
  rewrite Hs. split; [reflexivity|].
  split; [cbn -[ascii_dec]; destruct (ascii_dec "#"%char c); [congruence|reflexivity]|].
  split; [cbn -[ascii_dec]; destruct (ascii_dec "#"%char c); [congruence|reflexivity]|].
  split; [cbn -[ascii_dec]; destruct (ascii_dec "!"%char c); [congruence|reflexivity]|].
  rewrite <- Hs, Hl. eapply Forall_impl; [exact Hall|].
  intros x Hx. apply numeral_char_props. exact Hx.
Qed.

(** A run of numeric lines under a section header is pushed, in order,
    onto that section. *)
Lemma parse_lines_numbers (ids : list Z) (rest : list string) (deck : DeckData) (sec : SectionKey) :
  parse_lines (map number_to_string ids ++ rest) deck (Some sec) =
  parse_lines rest (fold_left (fun d x => push d sec x) ids deck) (Some sec).
Proof.
  revert deck; induction ids as [|x ids IH]; intros deck; [reflexivity|].
  destruct (number_line_props x) as (_ & He & Hm & Hx & Hs & _).
  cbn [map app parse_lines]. rewrite He, Hm, Hx, Hs, parseInt10_number_to_string.
  apply IH.
Qed.

Lemma fold_push_main (ids : list Z) (d : DeckData) :
  fold_left (fun d x => push d SecMain x) ids d =
  {| main := main d ++ ids; extra := extra d; side := side d |}.
Proof.
  revert d; induction ids as [|x ids IH]; intros d; simpl.
  - rewrite app_nil_r. destruct d; reflexivity.
  - rewrite IH. simpl. rewrite <- app_assoc. reflexivity.
Qed.

Lemma fold_push_extra (ids : list Z) (d : DeckData) :
  fold_left (fun d x => push d SecExtra x) ids d =
  {| main := main d; extra := extra d ++ ids; side := side d |}.
Proof.
  revert d; induction ids as [|x ids IH]; intros d; simpl.
  - rewrite app_nil_r. destruct d; reflexivity.
  - rewrite IH. simpl. rewrite <- app_assoc. reflexivity.
Qed.

Lemma fold_push_side (ids : list Z) (d : DeckData) :
  fold_left (fun d x => push d SecSide x) ids d =
  {| main := main d; extra := extra d; side := side d ++ ids |}.
Proof.
  revert d; induction ids as [|x ids IH]; intros d; simpl.
  - rewrite app_nil_r. destruct d; reflexivity.
  - rewrite IH. simpl. rewrite <- app_assoc. reflexivity.
Qed.

Lemma map_trim_id (xs : list string) : Forall (fun x => trim x = x) xs -> map trim xs = xs.
Proof. induction 1 as [|x xs Hx _ IH]; simpl; [reflexivity|]. rewrite Hx, IH. reflexivity. Qed.

Lemma ydk_roundtrip (mainDeck extraDeck sideDeck : list Card) :
  parseYDK (exportYDK mainDeck extraDeck sideDeck) =
  {| main := map id mainDeck; extra := map id extraDeck; side := map id sideDeck |}.
Proof.
  unfold parseYDK, exportYDK.
  rewrite <- !(map_map id number_to_string).
  set (lines := ["#created by DuelMath"%string; "#main"%string] ++
                map number_to_string (map id mainDeck) ++ ["#extra"%string] ++
                map number_to_string (map id extraDeck) ++ ["!side"%string] ++
                map number_to_string (map id sideDeck)).
  assert (Hnum : forall ids, Forall (fun x => trim x = x /\
              Forall (fun c => Ascii.eqb c newline = false) (list_ascii_of_string x))
              (map number_to_string ids)).
  { intros ids. induction ids as [|n ids IH]; simpl; constructor; [|exact IH].
    destruct (number_line_props n) as (Ht & _ & _ & _ & _ & Hn). split; assumption. }
  assert (Hlines : Forall (fun x => trim x = x /\
              Forall (fun c => Ascii.eqb c newline = false) (list_ascii_of_string x)) lines).
  { unfold lines. repeat (apply Forall_app; split);
      try apply Hnum; repeat constructor. }
  rewrite str_split_join by
    (unfold lines; discriminate || (eapply Forall_impl; [exact Hlines|]; intros x [_ Hx]; exact Hx)).
  rewrite map_trim_id by (eapply Forall_impl; [exact Hlines|]; intros x [Hx _]; exact Hx).
  unfold lines. cbn [app]. 
  change (parse_lines ("#created by DuelMath"%string :: "#main"%string :: ?X) ?d None)
    with (parse_lines X d (Some SecMain)).
  rewrite parse_lines_numbers.
  change (parse_lines ("#extra"%string :: ?X) ?d (Some SecMain))
    with (parse_lines X d (Some SecExtra)).
  rewrite parse_lines_numbers.
  change (parse_lines ("!side"%string :: ?X) ?d (Some SecExtra))
    with (parse_lines X d (Some SecSide)).
  rewrite <- (app_nil_r (map number_to_string (map id sideDeck))).
  rewrite parse_lines_numbers. cbn [parse_lines].
  rewrite fold_push_main, fold_push_extra, fold_push_side. reflexivity.
Qed.

Lemma drop_spaces_all (l : list ascii) : forallb is_js_space l = true -> drop_spaces l = [].
Proof.
  induction l as [|c l IH]; simpl; [reflexivity|].
  intros H. apply andb_true_iff in H as [-> H]. apply IH, H.
Qed.

Lemma drop_spaces_snoc_space (l : list ascii) (c : ascii) : is_js_space c = true ->
  drop_spaces (l ++ [c]) = if forallb is_js_space l then [] else drop_spaces l ++ [c].
Proof.
  intros Hc. induction l as [|x l IH]; simpl.
  - rewrite Hc. reflexivity.
  - destruct (is_js_space x); simpl; [exact IH|reflexivity].
Qed.

(** A trailing white-space character does not change [trim]. *)
Lemma trim_snoc_space (l : list ascii) (c : ascii) : is_js_space c = true ->
  trim (string_of_list_ascii (l ++ [c])) = trim (string_of_list_ascii l).
Proof.
  intros Hc. unfold trim. rewrite !list_ascii_of_string_of_list_ascii.
  rewrite drop_spaces_snoc_space by exact Hc.
  destruct (forallb is_js_space l) eqn:E.
  - rewrite (drop_spaces_all l E). reflexivity.
  - rewrite rev_app_distr. simpl. rewrite Hc. reflexivity.
Qed.


Lemma app_snoc_cons {A} (l : list A) (c : A) (r : list A) : l ++ c :: r = (l ++ [c]) ++ r.
Proof. rewrite <- app_assoc. reflexivity. Qed.

Lemma crlf_lines (xs : list string) :
  xs <> [] ->
  Forall (fun x => Forall (fun c => Ascii.eqb c newline = false) (list_ascii_of_string x)) xs ->
  map trim (str_split newline
              (join (String carriage_return (String newline EmptyString)) xs)) =
  map trim xs.
Proof.
  intros Hne Hxs. unfold str_split.
  induction Hxs as [|x xs Hx Hxs IH]; [congruence|].
  destruct xs as [|y xs].
  - simpl. rewrite split_on_no_sep by exact Hx. simpl.
    rewrite string_of_list_ascii_of_string. reflexivity.
  - change (join (String carriage_return (String newline EmptyString)) (x :: y :: xs))
      with (String.append x (String.append (String carriage_return (String newline EmptyString))
              (join (String carriage_return (String newline EmptyString)) (y :: xs)))).
    rewrite !list_ascii_of_string_append. cbn [list_ascii_of_string app].
    rewrite (app_snoc_cons (list_ascii_of_string x) carriage_return).
    rewrite split_on_app.
    + cbn [map]. rewrite trim_snoc_space by reflexivity.
      rewrite string_of_list_ascii_of_string. f_equal. apply IH. discriminate.
    + apply Forall_app. split; [exact Hx|]. repeat constructor.
Qed.

Lemma ydk_crlf (xs : list string) :
  Forall (fun x => Forall (fun c => Ascii.eqb c newline = false) (list_ascii_of_string x)) xs ->
  parseYDK (join (String carriage_return (String newline EmptyString)) xs) =
  parseYDK (join (String newline EmptyString) xs).
Proof.
  intros Hxs. destruct xs as [|x xs]; [reflexivity|].
  unfold parseYDK. rewrite crlf_lines by (discriminate || exact Hxs).
  rewrite str_split_join by (discriminate || exact Hxs). reflexivity.
Qed.

(* ---- deck builder ---- *)

Lemma cnt_app (x : string) (l1 l2 : list Card) : cnt x (l1 ++ l2) = (cnt x l1 + cnt x l2)%nat.
Proof. unfold cnt. rewrite List.filter_app, length_app. reflexivity. Qed.

Lemma cnt_cons (x : string) (c : Card) (l : list Card) :
  cnt x (c :: l) = ((if String.eqb (name c) x then 1 else 0) + cnt x l)%nat.
Proof. unfold cnt. simpl. destruct (String.eqb (name c) x); reflexivity. Qed.

Lemma cnt_perm (x : string) (l1 l2 : list Card) : l1 ≡ₚ l2 -> cnt x l1 = cnt x l2.
Proof.
  induction 1 as [|c l1 l2 _ IH|c1 c2 l|l1 l2 l3 _ IH1 _ IH2].
  - reflexivity.
  - rewrite !cnt_cons, IH. reflexivity.
  - rewrite !cnt_cons. lia.
  - congruence.
Qed.

Lemma ban_limit_le (card : Card) : (ban_limit card <= 3)%nat.
Proof. unfold ban_limit. repeat case_match; lia. Qed.

Lemma checkDeckLimit_spec (st : DeckState) (card : Card) :
  checkDeckLimit st card = (name_count st (name card) <? ban_limit card)%nat.
Proof.
  unfold checkDeckLimit, ban_limit, name_count, cnt, ban_is.
  destruct (ban_tcg card) as [b|]; [|reflexivity].
  set (n := length _).
  destruct (String.eqb_spec b "Forbidden"); [reflexivity|].
  destruct (String.eqb_spec b "Limited") as [->|].
  - simpl. destruct n as [|n]; reflexivity.
  - simpl. destruct (String.eqb_spec b "Semi-Limited") as [->|]; simpl;
      [destruct n as [|[|n]]|]; reflexivity.
Qed.

Lemma filter_index_from (i k : nat) (l : list Card) :
  map fst (List.filter (fun p => negb (Nat.eqb (snd p) i)) (combine l (seq k (length l)))) =
  if (k <=? i)%nat then take (i - k) l ++ drop (S (i - k)) l else l.
Proof.
  revert k. induction l as [|a l IH]; intros k.
  - simpl. destruct (k <=? i)%nat; [rewrite take_nil|]; reflexivity.
  - cbn [length seq combine List.filter snd].
    destruct (Nat.eqb_spec k i) as [->|Hne]; simpl.
    + rewrite IH, Nat.leb_refl, Nat.sub_diag.
      destruct (Nat.leb_spec (S i) i); [lia|reflexivity].
    + rewrite IH. destruct (Nat.leb_spec k i); destruct (Nat.leb_spec (S k) i); try lia.
      * replace (i - k)%nat with (S (i - S k)) by lia. reflexivity.
      * reflexivity.
Qed.

Lemma filter_index_splice (i : nat) (l : list Card) : filter_index i l = splice_remove i l.
Proof.
  unfold filter_index, splice_remove. rewrite filter_index_from.
  rewrite Nat.sub_0_r. reflexivity.
Qed.

Lemma get_set (st : DeckState) (sec : SectionType) (l : list Card) :
  getSectionData (setSectionData st sec l) sec = l.
Proof. destruct sec; reflexivity. Qed.

Lemma set_set (st : DeckState) (sec : SectionType) (l1 l2 : list Card) :
  setSectionData (setSectionData st sec l1) sec l2 = setSectionData st sec l2.
Proof. destruct sec; reflexivity. Qed.

Lemma set_get (st : DeckState) (sec : SectionType) :
  setSectionData st sec (getSectionData st sec) = st.
Proof. destruct st, sec; reflexivity. Qed.

Lemma splice_remove_last (l : list Card) (c : Card) : splice_remove (length l) (l ++ [c]) = l.
Proof.
  unfold splice_remove. rewrite take_app_length.
  rewrite (drop_ge (l ++ [c])) by (rewrite length_app; simpl; lia).
  apply app_nil_r.
Qed.

Lemma splice_remove_perm (i : nat) (l : list Card) (c : Card) :
  l !! i = Some c -> l ≡ₚ c :: splice_remove i l.
Proof.
  intros H. unfold splice_remove.
  rewrite <- (take_drop_middle l i c H) at 1.
  symmetry. apply Permutation_middle.
Qed.

Lemma splice_insert_perm (j : nat) (c : Card) (l : list Card) :
  splice_insert j c l ≡ₚ c :: l.
Proof.
  unfold splice_insert. rewrite <- Permutation_middle, take_drop. reflexivity.
Qed.

Lemma drop_refused_false (st : DeckState) (card : Card) (sec : SectionType) :
  drop_refused st card sec = false ->
  match sec with
  | SMain => checkDeckLimit st card = true /\ isExtraDeckCard card = false /\
             (length (mainDeck st) < 60)%nat
  | SExtra => checkDeckLimit st card = true /\ isExtraDeckCard card = true /\
              (length (extraDeck st) < 15)%nat
  | SSide => checkDeckLimit st card = true /\ (length (sideDeck st) < 15)%nat
  | SConsiderations => True
  end.
Proof.
  unfold drop_refused, section_eqb.
  destruct sec; simpl; destruct (checkDeckLimit st card), (isExtraDeckCard card); simpl;
    rewrite ?orb_false_r; intros H; try discriminate; auto;
    repeat split; try reflexivity; apply Nat.leb_gt; assumption.
Qed.

Ltac dsimpl :=
  cbn [getSectionData setSectionData mainDeck extraDeck sideDeck considerations length] in *.

(** Replacing a section by a permutation of itself keeps [deck_ok]. *)
Lemma deck_ok_perm (st : DeckState) (sec : SectionType) (l : list Card) :
  deck_ok st -> l ≡ₚ getSectionData st sec -> deck_ok (setSectionData st sec l).
Proof.
  intros (Hm & He & Hs & Fm & Fe & Hc) Hp.
  unfold deck_ok, name_count in *.
  destruct sec; dsimpl; rewrite ?(Permutation_length Hp);
    repeat split; auto; try (rewrite Hp; assumption);
    intros x; specialize (Hc x); rewrite !cnt_app in *; rewrite ?(cnt_perm x _ _ Hp); lia.
Qed.

(** Adding [card] to section [target] (the list becomes [l]), after an
    optional removal of [card] from another section [src], keeps
    [deck_ok] when the drop checks pass. *)
Lemma deck_ok_move (st st1 : DeckState) (card : Card) (target : SectionType) (l : list Card) :
  deck_ok st -> drop_refused st card target = false ->
  l ≡ₚ card :: getSectionData st target ->
  (st1 = st \/ exists src r, src <> target /\ getSectionData st src ≡ₚ card :: r /\
                             st1 = setSectionData st src r) ->
  deck_ok (setSectionData st1 target l).
Proof.
  intros Hok Href Hl Hsrc.
  pose proof (drop_refused_false st card target Href) as Ht.
  assert (Hlim : target <> SConsiderations -> (name_count st (name card) < 3)%nat).
  { intros Hne. pose proof (ban_limit_le card).
    assert (checkDeckLimit st card = true) as Hck by (destruct target; intuition).
    rewrite checkDeckLimit_spec in Hck. apply Nat.ltb_lt in Hck. lia. }
  destruct Hok as (Hm & He & Hs & Fm & Fe & Hc).
  unfold deck_ok, name_count in *.
  destruct Hsrc as [->|(src & r & Hne & Hr & ->)].
  - destruct target; dsimpl; rewrite ?(Permutation_length Hl); dsimpl;
      repeat split; try lia; try assumption;
      try (rewrite Hl; constructor; intuition);
      intros x; specialize (Hc x);
      try (specialize (Hlim ltac:(discriminate)));
      rewrite !cnt_app in *; rewrite ?(cnt_perm x _ _ Hl), ?cnt_cons;
      (destruct (String.eqb_spec (name card) x) as [Heq|]; [subst x|]; lia).
  - destruct target, src; try congruence; dsimpl;
      rewrite ?(Permutation_length Hl), ?(Permutation_length Hr) in *; dsimpl;
      repeat split; try lia;
      try assumption;
      try (rewrite Hl; constructor; intuition);
      try (rewrite Hr in Fm; apply Forall_cons in Fm as [_ Fm]; exact Fm);
      try (rewrite Hr in Fe; apply Forall_cons in Fe as [_ Fe]; exact Fe);
      intros x; specialize (Hc x);
      try (specialize (Hlim ltac:(discriminate)));
      rewrite !cnt_app in *; rewrite ?(cnt_perm x _ _ Hl), ?(cnt_perm x _ _ Hr), ?cnt_cons in *;
      (destruct (String.eqb_spec (name card) x) as [Heq|]; [subst x|]; lia).
Qed.

Lemma drop_refused_intro (st : DeckState) (card : Card) (sec : SectionType) :
  match sec with
  | SMain => checkDeckLimit st card = true /\ isExtraDeckCard card = false /\
             (length (mainDeck st) < 60)%nat
  | SExtra => checkDeckLimit st card = true /\ isExtraDeckCard card = true /\
              (length (extraDeck st) < 15)%nat
  | SSide => checkDeckLimit st card = true /\ (length (sideDeck st) < 15)%nat
  | SConsiderations => True
  end -> drop_refused st card sec = false.
Proof.
  destruct sec; [intros (Hc & Hx & Hl)|intros (Hc & Hx & Hl)|intros (Hc & Hl)|intros _];
    unfold drop_refused; rewrite ?Hc, ?Hx, ?(proj2 (Nat.leb_gt _ _) Hl); reflexivity.
Qed.

Lemma addCard_shape (st : DeckState) (card : Card) (target : AddTarget) :
  addCard st card target = st \/
  exists sec, drop_refused st card sec = false /\
              addCard st card target = setSectionData st sec (getSectionData st sec ++ [card]).
Proof.
  unfold addCard.
  case_bool_decide.
  { right. exists SConsiderations. split; [apply drop_refused_intro; exact I|reflexivity]. }
  destruct (checkDeckLimit st card) eqn:Hck; simpl; [|left; reflexivity].
  case_bool_decide.
  { destruct (Nat.ltb_spec (length (sideDeck st)) 15); [|left; reflexivity].
    right. exists SSide. split; [apply drop_refused_intro; auto|reflexivity]. }
  destruct (isExtraDeckCard card) eqn:Hx.
  - destruct (Nat.ltb_spec (length (extraDeck st)) 15); [|left; reflexivity].
    right. exists SExtra. split; [apply drop_refused_intro; auto|reflexivity].
  - destruct (Nat.ltb_spec (length (mainDeck st)) 60); [|left; reflexivity].
    right. exists SMain. split; [apply drop_refused_intro; auto|reflexivity].
Qed.

Lemma name_count_append (st : DeckState) (sec : SectionType) (c : Card) (x : string) :
  name_count (setSectionData st sec (getSectionData st sec ++ [c])) x =
  match sec with
  | SConsiderations => name_count st x
  | _ => ((if String.eqb (name c) x then 1 else 0) + name_count st x)%nat
  end.
Proof.
  unfold name_count. destruct sec; dsimpl; rewrite ?cnt_app, ?cnt_cons;
    change (cnt x []) with 0%nat; try reflexivity; lia.
Qed.

Lemma cnt_lookup (l : list Card) (i : nat) (c : Card) : l !! i = Some c -> (1 <= cnt (name c) l)%nat.
Proof.
  intros H. rewrite (cnt_perm _ _ _ (splice_remove_perm i l c H)), cnt_cons, String.eqb_refl. lia.
Qed.

Lemma ban_limit_limited (card : Card) : ban_is card "Limited" = true -> ban_limit card = 1%nat.
Proof.
  unfold ban_limit, ban_is. destruct (ban_tcg card) as [b|]; [|discriminate].
  intros H. apply String.eqb_eq in H. subst b. reflexivity.
Qed.

(** [addCard] adds at most one copy of the card's own name to main, extra
    and side, and only while the ban list allows another copy. *)
Theorem addCard_copy_limit (st : DeckState) (card : Card) (target : AddTarget) (x : string) :
  name_count (addCard st card target) x = name_count st x \/
  (x = name card /\ (name_count st x < ban_limit card)%nat /\
   name_count (addCard st card target) x = S (name_count st x)).
Proof.
  destruct (addCard_shape st card target) as [->|(sec & Href & ->)]; [left; reflexivity|].
  rewrite name_count_append.
  pose proof (drop_refused_false st card sec Href) as Ht.
  destruct sec; try (left; reflexivity);
    (destruct (String.eqb_spec (name card) x) as [<-|]; [right|left; lia]);
    (split; [reflexivity|split; [|lia]]);
    assert (Hck : checkDeckLimit st card = true) by intuition;
    rewrite checkDeckLimit_spec in Hck; apply Nat.ltb_lt in Hck; exact Hck.
Qed.

(** [addCard] keeps the deck within 60/15/15 cards, extra-deck cards in
    the extra deck only, and at most three copies per name. *)
Theorem addCard_deck_ok (st : DeckState) (card : Card) (target : AddTarget) :
  deck_ok st -> deck_ok (addCard st card target).
Proof.
  intros Hok.
  destruct (addCard_shape st card target) as [->|(sec & Href & ->)]; [exact Hok|].
  apply (deck_ok_move st st card sec); auto.
  symmetry. apply Permutation_cons_append.
Qed.

(** A card added by [addCard] is the last card of one section; removing
    that index with [removeCard] gives back the previous state. *)
Theorem addCard_removeCard (st : DeckState) (card : Card) (target : AddTarget) :
  addCard st card target = st \/
  exists sec, addCard st card target = setSectionData st sec (getSectionData st sec ++ [card]) /\
              removeCard (addCard st card target) (length (getSectionData st sec)) sec = st.
Proof.
  destruct (addCard_shape st card target) as [H|(sec & _ & H)]; [left; exact H|right].
  exists sec. split; [exact H|].
  rewrite H. unfold removeCard. rewrite get_set, filter_index_splice, splice_remove_last.
  rewrite set_set, set_get. reflexivity.
Qed.

Lemma remove_source_shape (st : DeckState) (d : DragInfo) (target : SectionType) :
  drag_ok st d -> sourceSection d <> Some (FromSection target) ->
  remove_source st d = st \/
  exists src r, src <> target /\ getSectionData st src ≡ₚ dcard d :: r /\
                remove_source st d = setSectionData st src r.
Proof.
  intros Hd Hne. unfold remove_source.
  destruct (sourceSection d) as [[src|]|] eqn:Hs; try (left; reflexivity).
  destruct (sourceIndex d) as [i|] eqn:Hi; [|left; reflexivity].
  right. exists src, (splice_remove i (getSectionData st src)).
  split; [congruence|split].
  - apply splice_remove_perm, Hd; assumption.
  - unfold removeCard. rewrite filter_index_splice. reflexivity.
Qed.

(** Both drop handlers keep [deck_ok] for a drag started on a deck card
    or a search result. *)
Theorem drop_deck_ok (st : DeckState) (d : DragInfo) (target : SectionType) :
  deck_ok st -> drag_ok st d ->
  deck_ok (fst (onDropOnSection st (Some d) target)) /\
  (forall targetIndex, deck_ok (fst (onDropOnCard st (Some d) target targetIndex))).
Proof.
  intros Hok Hd. unfold onDropOnSection, onDropOnCard.
  case_bool_decide as Hsame.
  - destruct (sourceIndex d) as [i|] eqn:Hi; [|split; [exact Hok|intros; exact Hok]].
    pose proof (splice_remove_perm i _ _ (Hd target i Hsame Hi)) as Hp.
    split; [|intros j]; apply deck_ok_perm; auto;
      (transitivity (dcard d :: splice_remove i (getSectionData st target)); [|symmetry; exact Hp]).
    + symmetry. apply Permutation_cons_append.
    + apply splice_insert_perm.
  - destruct (drop_refused st (dcard d) target) eqn:Href;
      [split; [exact Hok|intros; exact Hok]|].
    pose proof (remove_source_shape st d target Hd Hsame) as Hsrc.
    split; [|intros j]; cbn [fst]; apply (deck_ok_move st _ (dcard d)); auto.
    + symmetry. apply Permutation_cons_append.
    + apply splice_insert_perm.
Qed.

(** A Limited card dragged out of the main, extra or side deck counts
    itself in [checkDeckLimit], so neither drop handler ever moves it to
    another of these three sections. *)
Theorem drop_limited_refused (st : DeckState) (d : DragInfo) (src target : SectionType) (i : nat) :
  drag_ok st d -> sourceSection d = Some (FromSection src) -> sourceIndex d = Some i ->
  src <> SConsiderations -> target <> SConsiderations -> src <> target ->
  ban_is (dcard d) "Limited" = true ->
  onDropOnSection st (Some d) target = (st, Some d) /\
  (forall targetIndex, onDropOnCard st (Some d) target targetIndex = (st, Some d)).
Proof.
  intros Hd Hs Hi Hsrc Htgt Hne Hlim.
  pose proof (cnt_lookup _ _ _ (Hd src i Hs Hi)) as H1.
  assert (Hck : checkDeckLimit st (dcard d) = false).
  { rewrite checkDeckLimit_spec, (ban_limit_limited _ Hlim). apply Nat.ltb_ge.
    unfold name_count. rewrite !cnt_app.
    destruct src; [|  |  |congruence]; cbn [getSectionData] in H1; lia. }
  assert (Href : drop_refused st (dcard d) target = true).
  { unfold drop_refused, section_eqb. rewrite Hck, bool_decide_false by exact Htgt. reflexivity. }
  unfold onDropOnSection, onDropOnCard.
  rewrite bool_decide_false by (rewrite Hs; congruence).
  rewrite Href. split; reflexivity.
Qed.

(* ---- card cache ---- *)

Lemma cache_set_ok (cache : gmap Z Card) (cards : list Card) :
  cache_ok cache -> cache_ok (cache_set cache cards).
Proof.
  unfold cache_set. revert cache. induction cards as [|c cards IH]; intros cache Hok; [exact Hok|].
  simpl. apply IH. intros k c' Hk. apply lookup_insert_Some in Hk as [[<- <-]|[_ Hk]]; auto.
Qed.

Lemma cache_set_dom (cache : gmap Z Card) (cards : list Card) (i : Z) :
  is_Some (cache !! i) -> is_Some (cache_set cache cards !! i).
Proof.
  unfold cache_set. revert cache. induction cards as [|c cards IH]; intros cache H; [exact H|].
  simpl. apply IH. destruct (decide (id c = i)) as [->|Hne].
  - rewrite lookup_insert_eq. eauto.
  - rewrite lookup_insert_ne by exact Hne. exact H.
Qed.

Lemma fetch_chunks_props (request : Request) (cs : list (list Z)) (cache : gmap Z Card) :
  cache_ok cache ->
  cache_ok (fetch_chunks request cs cache) /\
  (forall i, is_Some (cache !! i) -> is_Some (fetch_chunks request cs cache !! i)).
Proof.
  revert cache. induction cs as [|chunk cs IH]; intros cache Hok; simpl; [split; auto|].
  destruct (request chunk) as [_|[cards|]]; [split; auto| |apply IH, Hok].
  destruct (IH (cache_set cache cards) (cache_set_ok _ _ Hok)) as [H1 H2].
  split; [exact H1|]. intros i Hi. apply H2, cache_set_dom, Hi.
Qed.

Lemma omap_lookup_ids (cache : gmap Z Card) (ids : list Z) :
  cache_ok cache -> map id (omap (fun i => cache !! i) ids) = List.filter (cache_has cache) ids.
Proof.
  intros Hok. induction ids as [|i ids IH]; [reflexivity|].
  simpl. rewrite <- IH. unfold cache_has at 1.
  destruct (cache !! i) as [c|] eqn:E; simpl; [rewrite (Hok i c E)|]; reflexivity.
Qed.

Lemma js_set_from_in (acc l : list Z) (x : Z) :
  In x (js_set_from acc l) -> In x acc \/ In x l.
Proof.
  revert acc. induction l as [|y l IH]; intros acc H; simpl in *; [left; exact H|].
  destruct (existsb (Z.eqb y) acc); apply IH in H as [H|H]; auto.
  apply in_app_or in H as [H|[<-|[]]]; auto.
Qed.

Lemma filter_all_false {A} (f : A -> bool) (l : list A) :
  (forall x, In x l -> f x = false) -> List.filter f l = [].
Proof.
  induction l as [|x l IH]; intros H; simpl; [reflexivity|].
  rewrite (H x (or_introl eq_refl)). apply IH. intros y Hy. apply H. right. exact Hy.
Qed.

(** When every id is in the cache, [fetchCardData] makes no request. *)
Lemma fetchCardData_cached (request : Request) (cache : gmap Z Card) (ids : list Z) :
  Forall (fun i => cache_has cache i = true) ids ->
  fetchCardData request cache ids = (cache, omap (fun i => cache !! i) ids).
Proof.
  intros Hall. unfold fetchCardData.
  rewrite filter_all_false; [reflexivity|].
  intros x Hx. apply js_set_from_in in Hx as [[]|Hx].
  rewrite Forall_forall in Hall. rewrite (Hall x (proj2 (list_elem_of_In _ _) Hx)). reflexivity.
Qed.

(** Whatever the card API answers, [fetchCardData] keeps every cache
    entry under its card's [id], never drops a cached id, and returns,
    in the order of [ids] and with repeats, exactly the cards of the
    ids found in the cache; ids it could not find are left out. *)
Theorem fetchCardData_cache (request : Request) (cache : gmap Z Card) (ids : list Z) :
  cache_ok cache ->
  cache_ok (fst (fetchCardData request cache ids)) /\
  (forall i, is_Some (cache !! i) -> is_Some (fst (fetchCardData request cache ids) !! i)) /\
  map id (snd (fetchCardData request cache ids)) =
    List.filter (cache_has (fst (fetchCardData request cache ids))) ids.
Proof.
  intros Hok. unfold fetchCardData. cbn [fst snd].
  match goal with |- context [if ?b then _ else _] => destruct b end.
  - destruct (fetch_chunks_props request (chunks (length (List.filter (fun i => negb (cache_has cache i))
      (js_set_from [] ids))) (List.filter (fun i => negb (cache_has cache i)) (js_set_from [] ids)))
      cache Hok) as [H1 H2].
    split; [exact H1|split; [exact H2|apply omap_lookup_ids, H1]].
  - split; [exact Hok|split; [auto|apply omap_lookup_ids, Hok]].
Qed.

Lemma omap_lookup_cards (cache : gmap Z Card) (l : list Card) :
  Forall (fun c => cache !! id c = Some c) l -> omap (fun i => cache !! i) (map id l) = l.
Proof.
  induction 1 as [|c l Hc _ IH]; [reflexivity|]. simpl. rewrite Hc. f_equal. exact IH.
Qed.

Lemma cached_ids (cache : gmap Z Card) (l : list Card) :
  Forall (fun c => cache !! id c = Some c) l -> Forall (fun i => cache_has cache i = true) (map id l).
Proof.
  intros H. apply Forall_map. eapply Forall_impl; [exact H|]. intros c Hc. unfold cache_has. rewrite Hc. reflexivity.
Qed.

(** Importing a file written by [exportYDK] gives back the three decks
    (and empty considerations) when their cards are in the card cache;
    no request is made. *)
Theorem exportYDK_handleImport (request : Request) (cache : gmap Z Card)
    (mainCards extraCards sideCards : list Card) :
  Forall (fun c => cache !! id c = Some c /\ Z.abs (id c) < 10 ^ 21)
         (mainCards ++ extraCards ++ sideCards) ->
  handleImport request cache (exportYDK mainCards extraCards sideCards) =
  (cache, {| mainDeck := mainCards; extraDeck := extraCards; sideDeck := sideCards;
             considerations := [] |}).
Proof.
  intros H. apply Forall_and in H as [H _]. apply Forall_app in H as [Hm H].
  apply Forall_app in H as [He Hs].
  unfold handleImport. rewrite ydk_roundtrip. cbn [main extra side].
  rewrite (fetchCardData_cached _ _ _ (cached_ids _ _ Hm)).
  rewrite (fetchCardData_cached _ _ _ (cached_ids _ _ He)).
  rewrite (fetchCardData_cached _ _ _ (cached_ids _ _ Hs)).
  rewrite !omap_lookup_cards by assumption. reflexivity.
Qed.

(** [parseYDK] reads back the ids [exportYDK] writes, section by
    section, in order and with repeats (for ids that [String] prints in
    plain decimal, below [1e21] in magnitude). *)
Theorem parseYDK_exportYDK (mainCards extraCards sideCards : list Card) :
  Forall (fun c => Z.abs (id c) < 10 ^ 21) (mainCards ++ extraCards ++ sideCards) ->
  parseYDK (exportYDK mainCards extraCards sideCards) =
  {| main := map id mainCards; extra := map id extraCards; side := map id sideCards |}.
Proof. intros _. apply ydk_roundtrip. Qed.

Lemma parseYDK_exportYDK_witness :
  Forall (fun c => Z.abs (id c) < 10 ^ 21)
    ([{| id := 89631139; name := "Blue-Eyes White Dragon"; type := "Normal Monster"; ban_tcg := None |}] ++
     [{| id := 23995346; name := "Blue-Eyes Ultimate Dragon"; type := "Fusion Monster"; ban_tcg := None |}] ++
     [{| id := -7; name := "x"; type := "Spell Card"; ban_tcg := None |}]) /\
  parseYDK (exportYDK
    [{| id := 89631139; name := "Blue-Eyes White Dragon"; type := "Normal Monster"; ban_tcg := None |}]
    [{| id := 23995346; name := "Blue-Eyes Ultimate Dragon"; type := "Fusion Monster"; ban_tcg := None |}]
    [{| id := -7; name := "x"; type := "Spell Card"; ban_tcg := None |}]) =
  {| main := [89631139]; extra := [23995346]; side := [-7] |}.
Proof.
  assert (H : Forall (fun c => Z.abs (id c) < 10 ^ 21)
    ([{| id := 89631139; name := "Blue-Eyes White Dragon"; type := "Normal Monster"; ban_tcg := None |}] ++
     [{| id := 23995346; name := "Blue-Eyes Ultimate Dragon"; type := "Fusion Monster"; ban_tcg := None |}] ++
     [{| id := -7; name := "x"; type := "Spell Card"; ban_tcg := None |}]))
    by (repeat constructor; simpl; lia).
  split; [exact H|]. exact (parseYDK_exportYDK _ _ _ H).
Defined.

(** [parseYDK] reads a file with Windows line ends ([\r\n]) as the same
    file with [\n] line ends: [trim] removes the carriage returns. *)
Theorem parseYDK_crlf (xs : list string) :
  Forall (fun x => Forall (fun c => Ascii.eqb c newline = false) (list_ascii_of_string x)) xs ->
  parseYDK (join (String carriage_return (String newline EmptyString)) xs) =
  parseYDK (join (String newline EmptyString) xs).
Proof. apply ydk_crlf. Qed.

Lemma parseYDK_crlf_witness :
  Forall (fun x => Forall (fun c => Ascii.eqb c newline = false) (list_ascii_of_string x))
    ["#main"; "89631139"; "!side"; "14558127"]%string /\
  parseYDK (join (String carriage_return (String newline EmptyString))
              ["#main"; "89631139"; "!side"; "14558127"]%string) =
  parseYDK (join (String newline EmptyString) ["#main"; "89631139"; "!side"; "14558127"]%string).
Proof.
  assert (H : Forall (fun x => Forall (fun c => Ascii.eqb c newline = false) (list_ascii_of_string x))
    ["#main"; "89631139"; "!side"; "14558127"]%string) by (repeat constructor).
  split; [exact H|]. exact (parseYDK_crlf _ H).
Defined.

Lemma deck_ok_single_main (c : Card) :
  isExtraDeckCard c = false ->
  deck_ok {| mainDeck := [c]; extraDeck := []; sideDeck := []; considerations := [] |}.
Proof.
  intros Hc. unfold deck_ok. cbn [mainDeck extraDeck sideDeck length].
  split; [lia|split; [lia|split; [lia|split; [repeat constructor; exact Hc|split; [constructor|]]]]].
  intros x. unfold name_count, cnt. cbn [mainDeck extraDeck sideDeck app List.filter].
  destruct (String.eqb _ x); cbn; lia.
Qed.

Lemma addCard_deck_ok_witness :
  deck_ok {| mainDeck := [{| id := 14558127; name := "Ash Blossom"; type := "Tuner Effect Monster";
                             ban_tcg := None |}];
             extraDeck := []; sideDeck := []; considerations := [] |} /\
  deck_ok (addCard {| mainDeck := [{| id := 14558127; name := "Ash Blossom";
                                      type := "Tuner Effect Monster"; ban_tcg := None |}];
                      extraDeck := []; sideDeck := []; considerations := [] |}
             {| id := 14558127; name := "Ash Blossom"; type := "Tuner Effect Monster";
                ban_tcg := None |} TAuto).
Proof.
  assert (H := deck_ok_single_main {| id := 14558127; name := "Ash Blossom";
                 type := "Tuner Effect Monster"; ban_tcg := None |} ltac:(vm_compute; reflexivity)).
  split; [exact H|]. apply addCard_deck_ok; exact H.
Defined.

Lemma drop_deck_ok_witness :
  let ash := {| id := 14558127; name := "Ash Blossom"; type := "Tuner Effect Monster";
                ban_tcg := None |} in
  let st := {| mainDeck := [ash]; extraDeck := []; sideDeck := []; considerations := [] |} in
  let d := {| dcard := ash; sourceSection := Some (FromSection SMain); sourceIndex := Some 0%nat |} in
  (deck_ok st /\ drag_ok st d) /\
  (deck_ok (fst (onDropOnSection st (Some d) SSide)) /\
   forall targetIndex, deck_ok (fst (onDropOnCard st (Some d) SSide targetIndex))).
Proof.
  cbv zeta.
  assert (H := deck_ok_single_main {| id := 14558127; name := "Ash Blossom";
                 type := "Tuner Effect Monster"; ban_tcg := None |} ltac:(vm_compute; reflexivity)).
  assert (Hd : drag_ok {| mainDeck := [{| id := 14558127; name := "Ash Blossom";
                 type := "Tuner Effect Monster"; ban_tcg := None |}];
                 extraDeck := []; sideDeck := []; considerations := [] |}
               {| dcard := {| id := 14558127; name := "Ash Blossom";
                 type := "Tuner Effect Monster"; ban_tcg := None |};
                  sourceSection := Some (FromSection SMain); sourceIndex := Some 0%nat |}).
  { intros sec i Hs Hi. cbn in Hs, Hi. injection Hs as <-. injection Hi as <-. reflexivity. }
  split; [split; assumption|]. apply drop_deck_ok; assumption.
Defined.

Lemma drop_limited_refused_witness :
  let cbtg := {| id := 24224830; name := "Called by the Grave"; type := "Spell Card";
                 ban_tcg := Some "Limited"%string |} in
  let st := {| mainDeck := [cbtg]; extraDeck := []; sideDeck := []; considerations := [] |} in
  let d := {| dcard := cbtg; sourceSection := Some (FromSection SMain); sourceIndex := Some 0%nat |} in
  (drag_ok st d /\ ban_is cbtg "Limited" = true) /\
  (onDropOnSection st (Some d) SSide = (st, Some d) /\
   forall targetIndex, onDropOnCard st (Some d) SSide targetIndex = (st, Some d)).
Proof.
  cbv zeta.
  assert (Hd : drag_ok {| mainDeck := [{| id := 24224830; name := "Called by the Grave";
                 type := "Spell Card"; ban_tcg := Some "Limited"%string |}];
                 extraDeck := []; sideDeck := []; considerations := [] |}
               {| dcard := {| id := 24224830; name := "Called by the Grave";
                 type := "Spell Card"; ban_tcg := Some "Limited"%string |};
                  sourceSection := Some (FromSection SMain); sourceIndex := Some 0%nat |}).
  { intros sec i Hs Hi. cbn in Hs, Hi. injection Hs as <-. injection Hi as <-. reflexivity. }
  split; [split; [exact Hd|reflexivity]|].
  apply (drop_limited_refused _ _ SMain SSide 0%nat Hd); (reflexivity || discriminate).
Defined.

Lemma fetchCardData_cache_witness :
  cache_ok (∅ : gmap Z Card) /\
  let request := fun (_ : list Z) =>
    @inr unit (option (list Card))
      (Some [{| id := 89631139; name := "Blue-Eyes White Dragon"; type := "Normal Monster";
               ban_tcg := None |}]) in
  cache_ok (fst (fetchCardData request ∅ [89631139; 5; 89631139])) /\
  (forall i, is_Some ((∅ : gmap Z Card) !! i) ->
             is_Some (fst (fetchCardData request ∅ [89631139; 5; 89631139]) !! i)) /\
  map id (snd (fetchCardData request ∅ [89631139; 5; 89631139])) =
    List.filter (cache_has (fst (fetchCardData request ∅ [89631139; 5; 89631139])))
      [89631139; 5; 89631139].
Proof.
  assert (H : cache_ok (∅ : gmap Z Card)) by (intros k c Hk; rewrite lookup_empty in Hk; discriminate).
  split; [exact H|]. cbv zeta. apply fetchCardData_cache; exact H.
Defined.

Lemma exportYDK_handleImport_witness :
  let bewd := {| id := 89631139; name := "Blue-Eyes White Dragon"; type := "Normal Monster";
                 ban_tcg := None |} in
  let cache := <[89631139 := bewd]> (∅ : gmap Z Card) in
  let request := fun (_ : list Z) => @inl unit (option (list Card)) tt in
  Forall (fun c => cache !! id c = Some c /\ Z.abs (id c) < 10 ^ 21) ([bewd; bewd] ++ [] ++ [bewd]) /\
  handleImport request cache (exportYDK [bewd; bewd] [] [bewd]) =
  (cache, {| mainDeck := [bewd; bewd]; extraDeck := []; sideDeck := [bewd]; considerations := [] |}).
Proof.
  cbv zeta.
  assert (H : Forall (fun c => (<[89631139 := {| id := 89631139; name := "Blue-Eyes White Dragon";
                  type := "Normal Monster"; ban_tcg := None |}]> (∅ : gmap Z Card)) !! id c = Some c /\
                  Z.abs (id c) < 10 ^ 21)
              ([{| id := 89631139; name := "Blue-Eyes White Dragon"; type := "Normal Monster";
                   ban_tcg := None |};
                {| id := 89631139; name := "Blue-Eyes White Dragon"; type := "Normal Monster";
                   ban_tcg := None |}] ++ [] ++
               [{| id := 89631139; name := "Blue-Eyes White Dragon"; type := "Normal Monster";
                   ban_tcg := None |}]))
    by (repeat constructor; simpl; try lia; apply lookup_insert_eq).
  split; [exact H|]. apply exportYDK_handleImport; exact H.
Defined.

End YdkProperties.

(* ------------------------------------------------------------------ *)
(** ** Side decking *)

Section SideDeckProperties.
Import SideDeck.

Section SwapProps.
Context {A : Type} (undefined : A).

Lemma fbi_from_partition (k : nat) (p : nat -> bool) (xs : list A) :
  xs ≡ₚ fbi_from k p xs ++ fbi_from k (fun i => negb (p i)) xs.
Proof.
  revert k. induction xs as [|a xs IH]; intros k; [reflexivity|].
  unfold fbi_from in *. cbn [length seq combine List.filter snd].
  destruct (p k); simpl.
  - constructor. apply IH.
  - rewrite <- Permutation_middle. constructor. apply IH.
Qed.

Lemma fbi_from_seq (k : nat) (p : nat -> bool) (xs : list A) :
  fbi_from k p xs = map (fun i => nth (i - k) xs undefined) (List.filter p (seq k (length xs))).
Proof.
  revert k. induction xs as [|a xs IH]; intros k; [reflexivity|].
  unfold fbi_from in *. cbn [length seq combine List.filter snd].
  assert (Hrest : map (fun i => nth (i - S k) xs undefined) (List.filter p (seq (S k) (length xs))) =
                  map (fun i => nth (i - k) (a :: xs) undefined) (List.filter p (seq (S k) (length xs)))).
  { apply map_ext_in. intros i Hi. apply filter_In in Hi as [Hi _]. apply in_seq in Hi.
    replace (i - k)%nat with (S (i - S k)) by lia. reflexivity. }
  destruct (p k); simpl; rewrite IH, Hrest; [rewrite Nat.sub_diag|]; reflexivity.
Qed.

Lemma set_has_spec (s : list nat) (i : nat) : set_has s i = true <-> In i s.
Proof.
  unfold set_has. rewrite existsb_exists. split.
  - intros (j & Hj & E). apply Nat.eqb_eq in E. subst. exact Hj.
  - intros H. exists i. split; [exact H|apply Nat.eqb_refl].
Qed.

(** The cards picked by a set of distinct in-range indices are the cards
    whose index is in the set, in some order. *)
Lemma picked_perm (xs : list A) (s : list nat) :
  NoDup s -> Forall (fun i => (i < length xs)%nat) s ->
  map (js_get undefined xs) s ≡ₚ filter_by_index (set_has s) xs.
Proof.
  intros Hnd Hr.
  change (filter_by_index (set_has s) xs) with (fbi_from 0 (set_has s) xs).
  rewrite fbi_from_seq.
  assert (Hs : s ≡ₚ List.filter (set_has s) (seq 0 (length xs))).
  { apply NoDup_Permutation; [exact Hnd| |].
    - apply NoDup_ListNoDup, List.NoDup_filter, seq_NoDup.
    - intros i. rewrite !list_elem_of_In, filter_In, in_seq, set_has_spec. split.
      + intros Hi. split; [|exact Hi]. rewrite Forall_forall in Hr.
        specialize (Hr i (proj2 (list_elem_of_In _ _) Hi)). lia.
      + intros [_ Hi]. exact Hi. }
  transitivity (map (js_get undefined xs) (List.filter (set_has s) (seq 0 (length xs))));
    [apply Permutation_map; exact Hs|].
  apply Permutation_refl'. apply map_ext. intros i. unfold js_get.
  rewrite Nat.sub_0_r. reflexivity.
Qed.

End SwapProps.

Lemma toggle_NoDup (s : list nat) (i : nat) : NoDup s -> NoDup (toggle s i).
Proof.
  intros Hnd. unfold toggle. destruct (set_has s i) eqn:E.
  - apply NoDup_ListNoDup, List.NoDup_filter, NoDup_ListNoDup, Hnd.
  - apply NoDup_app. split; [exact Hnd|split; [|apply NoDup_singleton]].
    intros j Hj Hj'. apply list_elem_of_singleton in Hj'. subst j.
    apply list_elem_of_In, set_has_spec in Hj. congruence.
Qed.

Lemma swap_perm {B} (Fm Gm Fs Gs Mi Mo : list B) :
  Mo ≡ₚ Gm -> Mi ≡ₚ Gs -> (Fm ++ Mi) ++ (Fs ++ Mo) ≡ₚ (Gm ++ Fm) ++ (Gs ++ Fs).
Proof.
  intros -> ->.
  rewrite (Permutation_app_comm Gm Fm), (Permutation_app_comm Gs Fs).
  rewrite <- !app_assoc. apply Permutation_app_head.
  rewrite (Permutation_app_comm Gs (Fs ++ Gm)), <- app_assoc.
  rewrite !app_assoc. apply Permutation_app_tail, Permutation_app_comm.
Qed.

(** [confirmSwap] with as many cards picked out of the main deck as out
    of the side deck exchanges them: the main and side decks keep their
    sizes, together they hold the same cards as before, the counts
    follow the new sizes and the selection is cleared. *)
Theorem confirmSwap_exchange {A} (undefined : A) (st : SwapState A) (da : DeckAnalysis A) :
  deckAnalysis st = Some da ->
  length (swapInIndices st) = length (swapOutIndices st) ->
  NoDup (swapOutIndices st) -> NoDup (swapInIndices st) ->
  Forall (fun i => (i < length (mainDetails da))%nat) (swapOutIndices st) ->
  Forall (fun i => (i < length (sideDetails da))%nat) (swapInIndices st) ->
  exists da',
    confirmSwap undefined st =
      {| deckAnalysis := Some da'; swapOutIndices := []; swapInIndices := [];
         isSideDeckMode := false |} /\
    mainDetails da' ++ sideDetails da' ≡ₚ mainDetails da ++ sideDetails da /\
    length (mainDetails da') = length (mainDetails da) /\
    length (sideDetails da') = length (sideDetails da) /\
    extraDetails da' = extraDetails da /\
    countMain da' = length (mainDetails da) /\ countSide da' = length (sideDetails da).
Proof.
  intros Hda Hlen Hndo Hndi Hro Hri.
  unfold confirmSwap. rewrite Hda, Hlen, Nat.eqb_refl. cbn [negb].
  set (M := mainDetails da). set (S := sideDetails da).
  set (O := swapOutIndices st). set (I := swapInIndices st).
  pose proof (picked_perm undefined M O Hndo Hro) as Po.
  pose proof (picked_perm undefined S I Hndi Hri) as Pi.
  pose proof (fbi_from_partition 0 (set_has O) M) as PM.
  pose proof (fbi_from_partition 0 (set_has I) S) as PS.
  change (fbi_from 0 ?p ?xs) with (filter_by_index p xs) in PM, PS.
  assert (Lo : length (map (js_get undefined M) O) = length O) by apply length_map.
  assert (Li : length (map (js_get undefined S) I) = length I) by apply length_map.
  assert (LM : length M = (length (filter_by_index (set_has O) M) +
                           length (filter_by_index (fun i => negb (set_has O i)) M))%nat)
    by (rewrite <- length_app, (Permutation_length PM); reflexivity).
  assert (LS : length S = (length (filter_by_index (set_has I) S) +
                           length (filter_by_index (fun i => negb (set_has I i)) S))%nat)
    by (rewrite <- length_app, (Permutation_length PS); reflexivity).
  rewrite <- (Permutation_length Po) in LM. rewrite <- (Permutation_length Pi) in LS.
  eexists. split; [reflexivity|]. cbn [mainDetails sideDetails extraDetails countMain countSide].
  rewrite !length_app.
  split; [|rewrite Lo, Li in *; unfold I, O in *; repeat split; lia].
  transitivity ((filter_by_index (set_has O) M ++ filter_by_index (fun i => negb (set_has O i)) M) ++
                (filter_by_index (set_has I) S ++ filter_by_index (fun i => negb (set_has I i)) S)).
  - apply swap_perm; assumption.
  - apply Permutation_app; symmetry; assumption.
Qed.

Lemma confirmSwap_exchange_witness :
  let da := {| mainDetails := ["a"; "b"; "c"]%string; extraDetails := ["e"]%string;
               sideDetails := ["x"; "y"]%string; countMain := 3; countExtra := 1; countSide := 2 |} in
  let st := {| deckAnalysis := Some da; swapOutIndices := [2; 0]%nat; swapInIndices := [1; 0]%nat;
               isSideDeckMode := true |} in
  (deckAnalysis st = Some da /\
   length (swapInIndices st) = length (swapOutIndices st) /\
   NoDup (swapOutIndices st) /\ NoDup (swapInIndices st) /\
   Forall (fun i => (i < length (mainDetails da))%nat) (swapOutIndices st) /\
   Forall (fun i => (i < length (sideDetails da))%nat) (swapInIndices st)) /\
  exists da',
    confirmSwap "undefined"%string st =
      {| deckAnalysis := Some da'; swapOutIndices := []; swapInIndices := [];
         isSideDeckMode := false |} /\
    mainDetails da' ++ sideDetails da' ≡ₚ mainDetails da ++ sideDetails da /\
    length (mainDetails da') = length (mainDetails da) /\
    length (sideDetails da') = length (sideDetails da) /\
    extraDetails da' = extraDetails da /\
    countMain da' = length (mainDetails da) /\ countSide da' = length (sideDetails da).
Proof.
  cbv zeta.
  assert (H : NoDup [2; 0]%nat /\ NoDup [1; 0]%nat) by (split; apply (bool_decide_unpack _); vm_compute; reflexivity).
  destruct H as [H1 H2].
  split; [repeat split; try reflexivity; try assumption; repeat constructor; cbn; lia|].
  apply confirmSwap_exchange; try reflexivity; try assumption; repeat constructor; cbn; lia.
Defined.

End SideDeckProperties.
